(** * Tire-print identifier: the image -> features -> label pipeline

    A shallow embedding of [src/app/api/predict/route.ts] (the API route)
    and of the preview helpers of the page component that is stored in the
    same source file, followed by the properties the specification states
    about them.

    Numbers are JavaScript Numbers, that is IEEE-754 binary64 values.  They
    are modelled bit for bit by [spec_float] at precision 53 and maximal
    exponent 1024, with the operations of the Standard Library's
    [SpecFloat]; a [Float32Array] element is a binary64 value that went
    through [fround], a [Uint8ClampedArray] element an integer produced by
    [toUint8Clamp]. *)

From Stdlib Require Import ZArith List Lia Bool String.
From Stdlib Require Import SpecFloat.
From stdpp Require Import base list.

Open Scope Z_scope.

(** ** JavaScript Numbers *)

Module Number.

Definition number := spec_float.

Definition prec : Z := 53.
Definition emax : Z := 1024.

Definition NaN : number := S754_nan.
Definition zero : number := S754_zero false.

(** [+], [-], [*], [/] and [Math.sqrt] round to nearest, ties to even. *)
Definition add : number -> number -> number := SFadd prec emax.
Definition sub : number -> number -> number := SFsub prec emax.
Definition mul : number -> number -> number := SFmul prec emax.
Definition div : number -> number -> number := SFdiv prec emax.
Definition sqrt : number -> number := SFsqrt prec emax.
Definition neg : number -> number := SFopp.
Definition abs : number -> number := SFabs.

(** The Number of an integer (array lengths, bytes, integer literals). *)
Definition of_Z (z : Z) : number := binary_normalize prec emax z 0 false.

(** The Number of the decimal literal [m / 10^k], for [m] and [10^k] below
    [2^53]: the literal denotes the binary64 value nearest to the rational,
    and the division of two exact integers rounds the same rational the
    same way. *)
Definition decimal (m : Z) (k : Z) : number := div (of_Z m) (of_Z (10 ^ k)).

Definition is_nan (x : number) : bool :=
  match x with S754_nan => true | _ => false end.

Definition is_finite (x : number) : bool :=
  match x with S754_zero _ | S754_finite _ _ _ => true | _ => false end.

(** [x <= y] as JavaScript compares Numbers (false on NaN). *)
Definition leb : number -> number -> bool := SFleb.

(** [Math.min(a, b)] and [Math.max(a, b)]: NaN if either argument is NaN,
    and -0 is smaller than +0. *)
Definition min2 (a b : number) : number :=
  match SFcompare a b with
  | None => NaN
  | Some Lt => a
  | Some Gt => b
  | Some Eq => match a with S754_zero true => a | _ => b end
  end.

Definition max2 (a b : number) : number :=
  match SFcompare a b with
  | None => NaN
  | Some Gt => a
  | Some Lt => b
  | Some Eq => match a with S754_zero false => a | _ => b end
  end.

(** [Math.floor]: the value [(+/-m) * 2^e] with [e < 0] is floored by an
    arithmetic shift; every finite value with [0 <= e] is an integer. *)
Definition floor (x : number) : number :=
  match x with
  | S754_finite s m e =>
      if 0 <=? e then x
      else binary_normalize prec emax
             (Z.shiftr (cond_Zopp s (Zpos m)) (- e)) 0 s
  | _ => x
  end.

(** The [%] operator on Numbers: the exact remainder of the truncating
    division, with the sign of the dividend. *)
Definition rem (n d : number) : number :=
  match n, d with
  | S754_nan, _ | _, S754_nan => NaN
  | S754_infinity _, _ => NaN
  | _, S754_zero _ => NaN
  | S754_zero _, _ => n
  | S754_finite _ _ _, S754_infinity _ => n
  | S754_finite sn mn en, S754_finite _ md ed =>
      let e := Z.min en ed in
      let N := Zpos mn * 2 ^ (en - e) in
      let D := Zpos md * 2 ^ (ed - e) in
      binary_normalize prec emax (cond_Zopp sn (N mod D)) e sn
  end.

(** A binary32 value, as the binary64 value equal to it. *)
Definition to_double (x : spec_float) : number :=
  match x with
  | S754_finite s m e => binary_round prec emax s m e
  | _ => x
  end.

(** [Math.fround]: round to binary32 (precision 24, maximal exponent 128),
    which is what a store into a [Float32Array] does. *)
Definition fround (x : number) : number :=
  match x with
  | S754_finite s m e => to_double (binary_round 24 128 s m e)
  | _ => x
  end.

(** ToUint8Clamp, the conversion of a store into a [Uint8ClampedArray]:
    NaN becomes 0, the value is clamped to [0, 255] and rounded to the
    nearest integer, ties to even. *)
Definition toUint8Clamp (x : number) : Z :=
  match x with
  | S754_nan => 0
  | S754_zero _ => 0
  | S754_infinity s => if s then 0 else 255
  | S754_finite true _ _ => 0
  | S754_finite false m e =>
      if 0 <=? e then Z.min 255 (Zpos m * 2 ^ e)
      else
        let f := Z.shiftr (Zpos m) (- e) in
        let r := Z.land (Zpos m) (Z.ones (- e)) in
        if 255 <=? f then 255
        else match r ?= 2 ^ (- e - 1) with
             | Lt => f
             | Gt => f + 1
             | Eq => if Z.even f then f else f + 1
             end
  end.

(** An array index: the non-negative integer a Number denotes, if any
    (both zeros denote index 0). *)
Definition to_index (x : number) : option nat :=
  match x with
  | S754_zero _ => Some 0%nat
  | S754_finite false m e =>
      if 0 <=? e then Some (Z.to_nat (Zpos m * 2 ^ e))
      else if Z.land (Zpos m) (Z.ones (- e)) =? 0
           then Some (Z.to_nat (Z.shiftr (Zpos m) (- e)))
           else None
  | _ => None
  end.

End Number.

Import Number.

(** ** Arrays and completions *)

(** A call either returns a value or throws an error, named as JavaScript
    names it. *)
Inductive completion (A : Type) : Type :=
| Normal (a : A)
| Throw (name : string).

Arguments Normal {A} a.
Arguments Throw {A} name.

(** Sequencing: an error ends the computation. *)
Definition bind {A B} (c : completion A) (k : A -> completion B)
  : completion B :=
  match c with
  | Normal a => k a
  | Throw e => Throw e
  end.

Abbreviation Float32Array := (list number).
Abbreviation Uint8Array := (list Z).
Abbreviation Uint8ClampedArray := (list Z).

(** Reading past the end (or before the start) of an array yields
    [undefined], which arithmetic converts to NaN. *)
Definition num_get (a : list number) (i : Z) : number :=
  if i <? 0 then NaN else default NaN (a !! Z.to_nat i).

Definition byte_get (a : list Z) (i : Z) : number :=
  if i <? 0 then NaN else from_option of_Z NaN (a !! Z.to_nat i).

(** A store into a typed array converts the value to the element type and
    is ignored when the index is out of range. *)
Definition f32_set (a : Float32Array) (i : Z) (v : number) : Float32Array :=
  if i <? 0 then a else <[Z.to_nat i := fround v]> a.

Definition u8c_set (a : Uint8ClampedArray) (i : Z) (v : number)
  : Uint8ClampedArray :=
  if i <? 0 then a else <[Z.to_nat i := toUint8Clamp v]> a.

(** [for (let i = lo; i < hi; i++) body]: the values [i] takes, in order. *)
Definition range (lo hi : Z) : list Z := seqZ lo (hi - lo).

(** [VEHICLES[idx]] for a Number [idx]: [None] is [undefined]. *)
Definition array_get {A} (a : list A) (idx : number) : option A :=
  match to_index idx with
  | Some i => a !! i
  | None => None
  end.

(** ** The API route: [route.ts] *)

Module Route.

Record VehicleInfo := {
  make : string;
  model : string;
  class : string;
  tire : string
}.

Definition VEHICLES : list VehicleInfo := [
  {| make := "Toyota"; model := "Camry"; class := "Sedan"; tire := "215/55R17" |};
  {| make := "Honda"; model := "Civic"; class := "Compact"; tire := "215/50R17" |};
  {| make := "Ford"; model := "F-150"; class := "Pickup"; tire := "275/65R18" |};
  {| make := "BMW"; model := "3 Series"; class := "Sports Sedan"; tire := "225/45R18" |};
  {| make := "Audi"; model := "Q5"; class := "SUV"; tire := "235/55R19" |}
].

(** The value stored for the pixel that starts at byte [i]. *)
Definition luma (data : Uint8Array) (i : Z) : number :=
  let r := byte_get data i in
  let b := byte_get data (i + 1) in
  let gb := byte_get data (i + 2) in
  div (add (add (mul (decimal 299 3) r) (mul (decimal 587 3) b))
           (mul (decimal 114 3) gb))
      (of_Z 255).

(** [for (let i = 0, g = 0; i < data.length; i += 4, g++)]: the loop runs
    for g = 0, 1, ... while [4 * g < data.length], with [i = 4 * g]. *)
Definition computeGrayscale (data : Uint8Array) : completion Float32Array :=
  let len := Z.of_nat (length data) in
  let gray := replicate (Z.to_nat (len / 4)) zero in
  let gray :=
    fold_left (fun gray g => let i := 4 * g in f32_set gray g (luma data i))
              (range 0 ((len + 3) / 4)) gray in
  Normal gray.

Definition gx : list number := map of_Z [-1; 0; 1; -2; 0; 2; -1; 0; 1].
Definition gy : list number := map of_Z [-1; -2; -1; 0; 0; 0; 1; 2; 1].

(** One step of the kernel loops: the state is [(sx, sy, k)]. *)
Definition kernel_step (gray : Float32Array) (width x y ky kx : Z)
           (st : number * number * Z) : number * number * Z :=
  let '(sx, sy, k) := st in
  let ix := x + kx in
  let iy := y + ky in
  let idx := iy * width + ix in
  let val := num_get gray idx in
  (add sx (mul (num_get gx k) val), add sy (mul (num_get gy k) val), k + 1).

(** The two kernel loops and the magnitude at the pixel [(x, y)]. *)
Definition magnitude (gray : Float32Array) (width x y : Z) : number :=
  let '(sx, sy, _) :=
    fold_left (fun st ky =>
                 fold_left (fun st kx => kernel_step gray width x y ky kx st)
                           (range (-1) 2) st)
              (range (-1) 2) (zero, zero, 0) in
  min2 (of_Z 255) (mul (sqrt (add (mul sx sx) (mul sy sy))) (of_Z 255)).

(** [new Uint8ClampedArray(width * height)] throws a RangeError on a
    negative length (the allocation limit of the engine is not modelled). *)
Definition sobelEdges (gray : Float32Array) (width height : Z)
  : completion Uint8ClampedArray :=
  if width * height <? 0 then Throw "RangeError"
  else
    let out := replicate (Z.to_nat (width * height)) 0 in
    let out :=
      fold_left (fun out y =>
                   fold_left (fun out x =>
                                u8c_set out (y * width + x)
                                        (magnitude gray width x y))
                             (range 1 (width - 1)) out)
                (range 1 (height - 1)) out in
    Normal out.

Record FeatureVector := {
  mean : number;
  std : number;
  skew : number
}.

Definition epsilon : number := decimal 1 6.

Definition featureSignature (gray : Float32Array) : completion FeatureVector :=
  let n := of_Z (Z.of_nat (length gray)) in
  let mean := fold_left (fun mean x => add mean x) gray zero in
  let mean := div mean n in
  let variance :=
    fold_left (fun variance x => let d := sub x mean in add variance (mul d d))
              gray zero in
  let variance := div variance n in
  let std := sqrt variance in
  let skew :=
    fold_left (fun skew x =>
                 let z := div (sub x mean) (add std epsilon) in
                 add skew (mul (mul z z) z))
              gray zero in
  let skew := div skew n in
  Normal {| mean := mean; std := std; skew := skew |}.

(** [Math.min(900, meta.width || 512)] in [POST]: the width the image is
    resized to.  [meta.width] is [undefined] ([None]) or an integer; [||]
    takes 512 when it is [undefined] or 0. *)
Definition workingWidth (meta_width : option Z) : number :=
  let w := match meta_width with
           | Some w => if w =? 0 then of_Z 512 else of_Z w
           | None => of_Z 512
           end in
  min2 (of_Z 900) w.

(** What [POST] computes from the decoded image.  [features] are the
    statistics before they are rounded to six decimals for the reply. *)
Record Prediction := {
  idx : number;
  vehicle : option VehicleInfo;
  confidence : number;
  features : FeatureVector;
  width : Z;
  height : Z
}.

Section Classifier.

(** [Math.exp] is approximated as the implementation chooses. *)
Variable exp : number -> number.

(** [Math.abs(Math.floor(mean * 7 + std * 11 + skew * 13))]. *)
Definition score (f : FeatureVector) : number :=
  abs (floor (add (add (mul (mean f) (of_Z 7)) (mul (std f) (of_Z 11)))
                  (mul (skew f) (of_Z 13)))).

Definition classIndex (f : FeatureVector) : number :=
  rem (score f) (of_Z (Z.of_nat (length VEHICLES))).

Definition sigmoidConfidence (std : number) : number :=
  let confidence := div (of_Z 1) (add (of_Z 1) (exp (mul (neg std) (of_Z 2)))) in
  max2 (decimal 2 1) (min2 (decimal 98 2) confidence).

(** The body of [POST] from the decoded pixels on. *)
Definition predict (rgba : Uint8Array) (width height : Z)
  : completion Prediction :=
  bind (computeGrayscale rgba) (fun gray =>
  bind (sobelEdges gray width height) (fun edges =>
  bind (featureSignature gray) (fun f =>
  let idx := classIndex f in
  Normal {| idx := idx;
            vehicle := array_get VEHICLES idx;
            confidence := sigmoidConfidence (std f);
            features := f;
            width := width;
            height := height |}))).

End Classifier.

End Route.

(** ** The page component: the preview helpers of [page.tsx] *)

Module Page.

Definition luma (data : Uint8ClampedArray) (i : Z) : number :=
  let r := byte_get data i in
  let b := byte_get data (i + 1) in
  let gch := byte_get data (i + 2) in
  div (add (add (mul (decimal 299 3) r) (mul (decimal 587 3) b))
           (mul (decimal 114 3) gch))
      (of_Z 255).

(** [for (let i = 0, g = 0; i < data.length; i += 4, g += 1)]. *)
Definition computeGrayscale (data : Uint8ClampedArray)
  : completion Float32Array :=
  let len := Z.of_nat (length data) in
  let gray := replicate (Z.to_nat (len / 4)) zero in
  let gray :=
    fold_left (fun gray g => let i := 4 * g in f32_set gray g (luma data i))
              (range 0 ((len + 3) / 4)) gray in
  Normal gray.

Definition gx : list number := map of_Z [-1; 0; 1; -2; 0; 2; -1; 0; 1].
Definition gy : list number := map of_Z [-1; -2; -1; 0; 0; 0; 1; 2; 1].

Definition kernel_step (gray : Float32Array) (width x y ky kx : Z)
           (st : number * number * Z) : number * number * Z :=
  let '(sx, sy, k) := st in
  let ix := x + kx in
  let iy := y + ky in
  let idx := iy * width + ix in
  let val := num_get gray idx in
  (add sx (mul (num_get gx k) val), add sy (mul (num_get gy k) val), k + 1).

Definition magnitude (gray : Float32Array) (width x y : Z) : number :=
  let '(sx, sy, _) :=
    fold_left (fun st ky =>
                 fold_left (fun st kx => kernel_step gray width x y ky kx st)
                           (range (-1) 2) st)
              (range (-1) 2) (zero, zero, 0) in
  min2 (of_Z 255) (mul (sqrt (add (mul sx sx) (mul sy sy))) (of_Z 255)).

Definition sobelEdges (gray : Float32Array) (width height : Z)
  : completion Uint8ClampedArray :=
  if width * height <? 0 then Throw "RangeError"
  else
    let out := replicate (Z.to_nat (width * height)) 0 in
    let out :=
      fold_left (fun out y =>
                   fold_left (fun out x =>
                                u8c_set out (y * width + x)
                                        (magnitude gray width x y))
                             (range 1 (width - 1)) out)
                (range 1 (height - 1)) out in
    Normal out.

(** The size of the preview canvas in [handleFile], from the natural size
    of the image:
    [width = Math.min(900, img.width)], [scale = width / img.width],
    [height = Math.floor(img.height * scale)]. *)
Definition previewSize (img_width img_height : Z) : number * number :=
  let width := min2 (of_Z 900) (of_Z img_width) in
  let scale := div width (of_Z img_width) in
  let height := floor (mul (of_Z img_height) scale) in
  (width, height).

(** One round of the loop of [handleFile] that paints the edges: the pixel
    [i] of the image gets the sample [edges[i]] in its three colour channels
    and 255 in its alpha channel. *)
Definition paint_step (edges : Uint8ClampedArray) (data : Uint8ClampedArray)
           (i : Z) : Uint8ClampedArray :=
  let v := byte_get edges i in
  let data := u8c_set data (i * 4) v in
  let data := u8c_set data (i * 4 + 1) v in
  let data := u8c_set data (i * 4 + 2) v in
  u8c_set data (i * 4 + 3) (of_Z 255).

(** [ctx.createImageData(width, height)] followed by that loop.  The canvas
    throws an IndexSizeError when a side is 0 and takes the absolute value
    of a negative side. *)
Definition edgeImage (edges : Uint8ClampedArray) (width height : Z)
  : completion Uint8ClampedArray :=
  if (width =? 0) || (height =? 0) then Throw "IndexSizeError"
  else
    let data := replicate (Z.to_nat (4 * (Z.abs width * Z.abs height))) 0 in
    Normal (fold_left (paint_step edges) (range 0 (Z.of_nat (length edges))) data).

End Page.

(** ** Definitions used by the statements and their proofs *)

Import Route.

(** A loop whose body is the one store [a[idx j] = val j], run over the
    values [js] of the loop variable. *)
Definition store_all {J A : Type} (idx : J -> Z) (val : J -> A)
           (js : list J) (a : list A) : list A :=
  fold_left (fun a j => if idx j <? 0 then a else <[Z.to_nat (idx j) := val j]> a)
            js a.

(** The pairs [(y, x)] two nested loops go through, in order. *)
Definition pairs (ys xs : list Z) : list (Z * Z) :=
  flat_map (fun y => map (fun x => (y, x)) xs) ys.

(** Where [sobelEdges] stores for the pixel [(x, y)], and what. *)
Definition sobel_idx (width : Z) (yx : Z * Z) : Z := fst yx * width + snd yx.

Definition sobel_val (gray : Float32Array) (width : Z) (yx : Z * Z) : Z :=
  toUint8Clamp (magnitude gray width (snd yx) (fst yx)).

(** The response of a 3x3 kernel at the pixel [(x, y)]: the nine products
    [kernel[k] * gray[(y + k / 3 - 1) * width + (x + k mod 3 - 1)]], added
    up from 0 in the order k = 0, ..., 8. *)
Definition response (kernel : list Z) (gray : Float32Array) (width x y : Z)
  : number :=
  fold_left
    (fun acc k =>
       add acc (mul (num_get (map of_Z kernel) k)
                    (num_get gray ((y + (k / 3 - 1)) * width + (x + (k mod 3 - 1))))))
    (range 0 9) zero.

Definition Gx : list Z := [-1; 0; 1; -2; 0; 2; -1; 0; 1].
Definition Gy : list Z := [-1; -2; -1; 0; 0; 0; 1; 2; 1].

(** The weighted sum [mean * 7 + std * 11 + skew * 13] of the classifier. *)
Definition weighted (f : FeatureVector) : number :=
  add (add (mul (mean f) (of_Z 7)) (mul (std f) (of_Z 11))) (mul (skew f) (of_Z 13)).

(** One admissible [Math.exp]: the exact values at the special arguments,
    and the Taylor polynomial of degree 29 elsewhere.  It instantiates the
    parameter of the classifier in examples. *)
Definition exp_series (x : number) : number :=
  match x with
  | S754_nan => NaN
  | S754_zero _ => of_Z 1
  | S754_infinity s => if s then zero else x
  | S754_finite _ _ _ =>
      snd (fold_left
             (fun ts k => let t := div (mul (fst ts) x) (of_Z k) in (t, add (snd ts) t))
             (range 1 30) (of_Z 1, of_Z 1))
  end.

(** The number of binary digits of a mantissa. *)
Definition digits (m : positive) : Z := Zpos (digits2_pos m).

(** The canonical mantissa and exponent of [p * 2^e] for [p < 2^53]. *)
Definition canon_m (p : positive) : positive := Z.to_pos (Zpos p * 2 ^ (53 - digits p)).
Definition canon_e (p : positive) (e : Z) : Z := e - (53 - digits p).

(** 0.99999994, the largest single-precision value below 1, and the
    length [2^29 + 33] of a buffer in which adding it up stops being exact. *)
Definition near_one : number := fround (decimal 99999994 8).
Definition long_length : positive := 536870945.

(** ** Lemmas on completions and stores into typed arrays *)

Lemma Normal_inj {A} (a b : A) : Normal a = Normal b -> a = b.
Proof. now intros [= ->]. Qed.


Section ArrayStores.

Context {J A : Type}.
Variable idx : J -> Z.
Variable val : J -> A.

Lemma store_all_snoc js j a :
  store_all idx val (js ++ [j]) a =
  (if idx j <? 0 then store_all idx val js a
   else <[Z.to_nat (idx j) := val j]> (store_all idx val js a)).
Proof. unfold store_all. now rewrite fold_left_app. Qed.

Lemma store_all_length js a : length (store_all idx val js a) = length a.
Proof.
  induction js as [|j js IH] using rev_ind; [reflexivity|].
  rewrite store_all_snoc. destruct (idx j <? 0); [assumption|].
  now rewrite length_insert.
Qed.

Lemma store_all_other js a (i : nat) :
  (forall j, j ∈ js -> idx j <> Z.of_nat i) ->
  store_all idx val js a !! i = a !! i.
Proof.
  induction js as [|j js IH] using rev_ind; intros Hne; [reflexivity|].
  rewrite store_all_snoc.
  assert (Hj : idx j <> Z.of_nat i) by (apply Hne, elem_of_app; right; now left).
  assert (IH' : store_all idx val js a !! i = a !! i)
    by (apply IH; intros j' Hj'; apply Hne, elem_of_app; now left).
  destruct (idx j <? 0) eqn:E; [assumption|].
  rewrite list_lookup_insert_ne; [assumption|].
  apply Z.ltb_ge in E. lia.
Qed.

Lemma store_all_at js a j :
  j ∈ js ->
  (forall j', j' ∈ js -> idx j' = idx j -> val j' = val j) ->
  0 <= idx j < Z.of_nat (length a) ->
  store_all idx val js a !! Z.to_nat (idx j) = Some (val j).
Proof.
  induction js as [|j0 js IH] using rev_ind; intros Hin Hval Hrange.
  - now apply elem_of_nil in Hin.
  - rewrite store_all_snoc.
    destruct (Z.eq_dec (idx j0) (idx j)) as [Heq|Hne].
    + destruct (idx j0 <? 0) eqn:E; [apply Z.ltb_lt in E; lia|].
      rewrite Heq, list_lookup_insert_eq.
      * f_equal. apply Hval; [apply elem_of_app; right; now left|assumption].
      * rewrite store_all_length. lia.
    + assert (Hin' : j ∈ js).
      { apply elem_of_app in Hin as [Hin|Hin]; [assumption|].
        apply list_elem_of_singleton in Hin. now subst. }
      assert (IH' : store_all idx val js a !! Z.to_nat (idx j) = Some (val j)).
      { apply IH; try assumption.
        intros j' Hj'. apply Hval, elem_of_app. now left. }
      destruct (idx j0 <? 0) eqn:E; [assumption|].
      rewrite list_lookup_insert_ne; [assumption|].
      apply Z.ltb_ge in E. lia.
Qed.

Lemma store_all_Forall (P : A -> Prop) js a :
  Forall P a -> (forall j, P (val j)) -> Forall P (store_all idx val js a).
Proof.
  intros Ha Hv. induction js as [|j js IH] using rev_ind; [assumption|].
  rewrite store_all_snoc. destruct (idx j <? 0); [assumption|].
  now apply Forall_insert.
Qed.

End ArrayStores.


Lemma fold_left_nested {S} (f : S -> Z -> Z -> S) (ys xs : list Z) (s : S) :
  fold_left (fun s y => fold_left (fun s x => f s y x) xs s) ys s =
  fold_left (fun s yx => f s (fst yx) (snd yx)) (pairs ys xs) s.
Proof.
  assert (Hrow : forall y s,
             fold_left (fun s x => f s y x) xs s =
             fold_left (fun s yx => f s (fst yx) (snd yx))
                       (map (fun x => (y, x)) xs) s).
  { intros y. induction xs as [|x xs IHx]; intros s'; [reflexivity|].
    cbn. apply IHx. }
  revert s. induction ys as [|y ys IH]; intros s; [reflexivity|].
  cbn [fold_left pairs flat_map]. rewrite fold_left_app, IH.
  fold (pairs ys xs). now rewrite Hrow.
Qed.

Lemma elem_of_pairs (ys xs : list Z) (y x : Z) :
  (y, x) ∈ pairs ys xs <-> y ∈ ys /\ x ∈ xs.
Proof.
  unfold pairs. rewrite !list_elem_of_In, in_flat_map. split.
  - intros (y' & Hy & Hin). apply in_map_iff in Hin as (x' & Heq & Hx).
    inversion Heq; subst. now split.
  - intros [Hy Hx]. exists y. split; [assumption|].
    apply in_map_iff. now exists x.
Qed.

Lemma elem_of_range (lo hi k : Z) : k ∈ range lo hi <-> lo <= k < hi.
Proof. unfold range. rewrite elem_of_seqZ. lia. Qed.

Lemma toUint8Clamp_range (v : number) : 0 <= toUint8Clamp v <= 255.
Proof.
  destruct v as [s|s| |s m e]; cbn; try lia.
  - destruct s; lia.
  - destruct s; [lia|].
    destruct (0 <=? e) eqn:He.
    + assert (0 < 2 ^ e) by (apply Z.pow_pos_nonneg; lia). nia.
    + apply Z.leb_gt in He.
      assert (Hf : 0 <= Z.shiftr (Z.pos m) (- e)) by (apply Z.shiftr_nonneg; lia).
      destruct (255 <=? Z.shiftr (Z.pos m) (- e)) eqn:Hc; [lia|].
      apply Z.leb_gt in Hc.
      destruct (_ ?= _); [destruct (Z.even _)| |]; lia.
Qed.

Lemma sobelEdges_stores gray width height :
  0 <= width * height ->
  sobelEdges gray width height =
  Normal (store_all (sobel_idx width) (sobel_val gray width)
                    (pairs (range 1 (height - 1)) (range 1 (width - 1)))
                    (replicate (Z.to_nat (width * height)) 0)).
Proof.
  intros Hwh. unfold sobelEdges.
  destruct (width * height <? 0) eqn:E; [apply Z.ltb_lt in E; lia|].
  f_equal.
  rewrite (fold_left_nested
             (fun out y x => u8c_set out (y * width + x) (magnitude gray width x y))).
  unfold store_all, u8c_set, sobel_idx, sobel_val.
  reflexivity.
Qed.

Lemma sobel_idx_inj width y x y' x' :
  0 <= x < width -> 0 <= x' < width ->
  y * width + x = y' * width + x' -> y = y' /\ x = x'.
Proof.
  intros Hx Hx' Heq.
  assert (Hy : y = (y * width + x) / width)
    by (apply Z.div_unique with (r := x); lia).
  assert (Hy' : y' = (y' * width + x') / width)
    by (apply Z.div_unique with (r := x'); lia).
  rewrite Heq in Hy. split; [congruence|]. assert (y = y') by congruence. subst. lia.
Qed.

Lemma magnitude_response gray width x y :
  magnitude gray width x y =
  let sx := response Gx gray width x y in
  let sy := response Gy gray width x y in
  min2 (of_Z 255) (mul (sqrt (add (mul sx sx) (mul sy sy))) (of_Z 255)).
Proof.
  unfold magnitude, response, range.
  change (seqZ (-1) (2 - -1)) with [-1; 0; 1].
  change (seqZ 0 (9 - 0)) with [0; 1; 2; 3; 4; 5; 6; 7; 8].
  cbn [fold_left]. unfold kernel_step.
  reflexivity.
Qed.

(** ** Lemmas on rounding *)

Section Rounding.

Variables prec emax : Z.
Hypothesis Hprec : 0 < prec.

#[local] Set Default Proof Using "Hprec".

Lemma digits_pos m : 0 < digits m.
Proof. unfold digits. lia. Qed.

Lemma digits_spec m : 2 ^ (digits m - 1) <= Zpos m < 2 ^ digits m.
Proof.
  unfold digits. induction m as [m IH|m IH|]; cbn [digits2_pos].
  - rewrite Pos2Z.inj_succ.
    replace (Z.succ (Zpos (digits2_pos m)) - 1) with (Z.succ (Zpos (digits2_pos m) - 1)) by lia.
    rewrite !Z.pow_succ_r by lia. lia.
  - rewrite Pos2Z.inj_succ.
    replace (Z.succ (Zpos (digits2_pos m)) - 1) with (Z.succ (Zpos (digits2_pos m) - 1)) by lia.
    rewrite !Z.pow_succ_r by lia. lia.
  - cbn. lia.
Qed.

Lemma digits_unique m d : 2 ^ (d - 1) <= Zpos m < 2 ^ d -> digits m = d.
Proof.
  intros [Hlo Hhi]. pose proof (digits_spec m) as [Hlo' Hhi'].
  pose proof (digits_pos m) as Hd.
  assert (Hd0 : 0 < d).
  { destruct (Z.lt_ge_cases 0 d) as [H|H]; [assumption|].
    destruct (Z.eq_dec d 0) as [->|Hne]; [cbn in Hhi; lia|].
    rewrite Z.pow_neg_r in Hhi by lia. lia. }
  destruct (Z.lt_trichotomy (digits m) d) as [Hlt|[Heq|Hgt]]; [|assumption|].
  - assert (2 ^ digits m <= 2 ^ (d - 1)) by (apply Z.pow_le_mono_r; lia). lia.
  - assert (2 ^ d <= 2 ^ (digits m - 1)) by (apply Z.pow_le_mono_r; lia). lia.
Qed.

Lemma Zdigits2_pos m : Zdigits2 (Zpos m) = digits m.
Proof. reflexivity. Qed.

Lemma digits_mul_pow2 (m : positive) (j : Z) :
  0 <= j -> Zdigits2 (Zpos m * 2 ^ j) = digits m + j.
Proof.
  intros Hj. pose proof (digits_spec m) as [Hlo Hhi].
  pose proof (digits_pos m) as Hd.
  assert (Hp : 0 < 2 ^ j) by (apply Z.pow_pos_nonneg; lia).
  destruct (Zpos m * 2 ^ j) as [|q|q] eqn:E; [lia| |lia].
  rewrite Zdigits2_pos. apply digits_unique. rewrite <- E.
  replace (digits m + j - 1) with ((digits m - 1) + j) by lia.
  rewrite !Z.pow_add_r by lia. nia.
Qed.

Lemma digits_le (m1 m2 : positive) :
  Zpos m1 <= Zpos m2 -> digits m1 <= digits m2.
Proof.
  intros Hle. pose proof (digits_spec m1) as [Hlo1 Hhi1].
  pose proof (digits_spec m2) as [Hlo2 Hhi2].
  destruct (Z.le_gt_cases (digits m1) (digits m2)) as [H|H]; [assumption|].
  assert (2 ^ digits m2 <= 2 ^ (digits m1 - 1)) by (apply Z.pow_le_mono_r; lia).
  lia.
Qed.

(** *** Right shifts *)

Lemma shr_1_m mrs : 0 <= shr_m mrs -> shr_m (shr_1 mrs) = shr_m mrs / 2.
Proof.
  destruct mrs as [m r s]. cbn [shr_m]. intros Hm.
  destruct m as [|p|p]; [reflexivity| |lia].
  destruct p as [p|p|]; cbn [shr_1 shr_m].
  - apply Z.div_unique with (r := 1); lia.
  - apply Z.div_unique with (r := 0); lia.
  - reflexivity.
Qed.

Lemma div_pow2_twice (a i j : Z) :
  0 <= i -> 0 <= j -> a / 2 ^ i / 2 ^ j = a / 2 ^ (i + j).
Proof.
  intros Hi Hj.
  assert (0 < 2 ^ i) by (apply Z.pow_pos_nonneg; lia).
  assert (0 < 2 ^ j) by (apply Z.pow_pos_nonneg; lia).
  rewrite Z.pow_add_r by lia. rewrite Z.div_div by lia. reflexivity.
Qed.

Lemma iter_shr_m n mrs :
  0 <= shr_m mrs -> shr_m (SpecFloat.iter_pos shr_1 n mrs) = shr_m mrs / 2 ^ Zpos n.
Proof.
  revert mrs. induction n as [n IH|n IH|]; intros mrs Hm; cbn [SpecFloat.iter_pos].
  - assert (H1 : 0 <= shr_m (shr_1 mrs))
      by (rewrite shr_1_m by assumption; apply Z.div_pos; lia).
    assert (H2 : 0 <= shr_m (SpecFloat.iter_pos shr_1 n (shr_1 mrs))).
    { rewrite IH by assumption. apply Z.div_pos; [assumption|].
      apply Z.pow_pos_nonneg; lia. }
    rewrite IH by assumption. rewrite IH by assumption.
    rewrite shr_1_m by assumption.
    change 2 with (2 ^ 1) at 1. rewrite !div_pow2_twice by lia.
    f_equal. f_equal. lia.
  - assert (H2 : 0 <= shr_m (SpecFloat.iter_pos shr_1 n mrs)).
    { rewrite IH by assumption. apply Z.div_pos; [assumption|].
      apply Z.pow_pos_nonneg; lia. }
    rewrite IH by assumption. rewrite IH by assumption.
    rewrite !div_pow2_twice by lia. f_equal. f_equal. lia.
  - rewrite shr_1_m by assumption. reflexivity.
Qed.

Lemma shr_record_of_loc_m m l : shr_m (shr_record_of_loc m l) = m.
Proof. destruct l as [|[| |]]; reflexivity. Qed.

Lemma shr_spec mrs e n :
  0 <= shr_m mrs ->
  shr_m (fst (shr mrs e n)) = shr_m mrs / 2 ^ Z.max 0 n /\
  snd (shr mrs e n) = e + Z.max 0 n.
Proof.
  intros Hm. destruct n as [|p|p]; cbn [shr fst snd].
  - cbn. rewrite Z.div_1_r. lia.
  - rewrite iter_shr_m by assumption. split; [f_equal; f_equal; lia|lia].
  - cbn. rewrite Z.div_1_r. lia.
Qed.

Lemma shr_fexp_spec m e l :
  0 <= m ->
  let n := Z.max 0 (fexp prec emax (Zdigits2 m + e) - e) in
  shr_m (fst (shr_fexp prec emax m e l)) = m / 2 ^ n /\
  snd (shr_fexp prec emax m e l) = e + n.
Proof.
  intros Hm n. unfold shr_fexp.
  pose proof (shr_spec (shr_record_of_loc m l) e
                (fexp prec emax (Zdigits2 m + e) - e)) as H.
  rewrite shr_record_of_loc_m in H. now apply H.
Qed.

Lemma round_nearest_even_bounds m l :
  m <= round_nearest_even m l <= m + 1.
Proof.
  destruct l as [|[| |]]; cbn [round_nearest_even]; try lia.
  destruct (Z.even m); lia.
Qed.

(** *** Rounding never produces NaN *)

Lemma binary_round_aux_not_nan s m e l :
  0 <= m -> binary_round_aux prec emax s m e l <> S754_nan.
Proof.
  intros Hm. unfold binary_round_aux.
  destruct (shr_fexp prec emax m e l) as [mrs1 e1] eqn:E1.
  pose proof (shr_fexp_spec m e l Hm) as [Hm1 _]. rewrite E1 in Hm1.
  cbn [fst] in Hm1.
  set (m2 := round_nearest_even (shr_m mrs1) (loc_of_shr_record mrs1)).
  assert (Hm2 : 0 <= m2).
  { pose proof (round_nearest_even_bounds (shr_m mrs1) (loc_of_shr_record mrs1)).
    assert (0 <= shr_m mrs1); [|unfold m2; lia].
    rewrite Hm1. apply Z.div_pos; [assumption|]. apply Z.pow_pos_nonneg; lia. }
  destruct (shr_fexp prec emax m2 e1 loc_Exact) as [mrs2 e2] eqn:E2.
  pose proof (shr_fexp_spec m2 e1 loc_Exact Hm2) as [Hm3 _]. rewrite E2 in Hm3.
  cbn [fst] in Hm3.
  assert (H3 : 0 <= shr_m mrs2).
  { rewrite Hm3. apply Z.div_pos; [assumption|]. apply Z.pow_pos_nonneg; lia. }
  destruct (shr_m mrs2); [discriminate| |lia].
  destruct (_ <=? _); discriminate.
Qed.

(** *** Rounding a representable value is exact *)

Lemma shr_1_double a :
  0 <= a ->
  shr_1 {| shr_m := 2 * a; shr_r := false; shr_s := false |} =
  {| shr_m := a; shr_r := false; shr_s := false |}.
Proof. intros Ha. destruct a as [|p|p]; [reflexivity|reflexivity|lia]. Qed.

Lemma pow2_xO (n : positive) : 2 ^ Zpos n~0 = 2 ^ Zpos n * 2 ^ Zpos n.
Proof.
  replace (Zpos n~0) with (Zpos n + Zpos n) by lia. apply Z.pow_add_r; lia.
Qed.

Lemma pow2_xI (n : positive) : 2 ^ Zpos n~1 = 2 * (2 ^ Zpos n * 2 ^ Zpos n).
Proof.
  replace (Zpos n~1) with (Z.succ (Zpos n + Zpos n)) by lia.
  rewrite Z.pow_succ_r by lia. f_equal. apply Z.pow_add_r; lia.
Qed.

Lemma iter_shr_exact n q :
  0 <= q ->
  SpecFloat.iter_pos shr_1 n {| shr_m := q * 2 ^ Zpos n; shr_r := false; shr_s := false |} =
  {| shr_m := q; shr_r := false; shr_s := false |}.
Proof.
  revert q. induction n as [n IH|n IH|]; intros q Hq; cbn [SpecFloat.iter_pos].
  - assert (0 < 2 ^ Zpos n) by (apply Z.pow_pos_nonneg; lia).
    replace (q * 2 ^ Zpos n~1) with (2 * ((q * 2 ^ Zpos n) * 2 ^ Zpos n))
      by (rewrite pow2_xI; ring).
    rewrite shr_1_double by nia. rewrite IH by nia. now apply IH.
  - assert (0 < 2 ^ Zpos n) by (apply Z.pow_pos_nonneg; lia).
    replace (q * 2 ^ Zpos n~0) with ((q * 2 ^ Zpos n) * 2 ^ Zpos n)
      by (rewrite pow2_xO; ring).
    rewrite IH by nia. now apply IH.
  - change (2 ^ 1) with 2. rewrite Z.mul_comm. now apply shr_1_double.
Qed.

Lemma canonical_fexp u e :
  canonical_mantissa prec emax u e = true -> fexp prec emax (digits u + e) = e.
Proof. unfold canonical_mantissa. intros H. now apply Z.eqb_eq in H. Qed.

Lemma binary_round_aux_exact s (u : positive) (j e : Z) :
  0 <= j ->
  canonical_mantissa prec emax u e = true ->
  e <= emax - prec ->
  binary_round_aux prec emax s (Zpos u * 2 ^ j) (e - j) loc_Exact = S754_finite s u e.
Proof.
  intros Hj Hcan He. pose proof (canonical_fexp u e Hcan) as Hf.
  unfold binary_round_aux.
  assert (H1 : shr_fexp prec emax (Zpos u * 2 ^ j) (e - j) loc_Exact =
               ({| shr_m := Zpos u; shr_r := false; shr_s := false |}, e)).
  { unfold shr_fexp. rewrite digits_mul_pow2 by assumption.
    replace (digits u + j + (e - j)) with (digits u + e) by lia. rewrite Hf.
    replace (e - (e - j)) with j by lia. cbn [shr_record_of_loc].
    destruct j as [|p|p]; [| |lia]; cbn [shr].
    - rewrite Z.mul_1_r. f_equal. lia.
    - rewrite iter_shr_exact by lia. f_equal. lia. }
  rewrite H1. cbn [shr_m loc_of_shr_record round_nearest_even].
  assert (H2 : shr_fexp prec emax (Zpos u) e loc_Exact =
               ({| shr_m := Zpos u; shr_r := false; shr_s := false |}, e)).
  { unfold shr_fexp. rewrite Zdigits2_pos, Hf, Z.sub_diag. reflexivity. }
  rewrite H2. cbn [shr_m].
  destruct (e <=? emax - prec) eqn:E; [reflexivity|]. apply Z.leb_gt in E. lia.
Qed.

Lemma pos_iter_xO (m p : positive) : Zpos (Pos.iter xO m p) = Zpos m * 2 ^ Zpos p.
Proof.
  induction p as [|p IH] using Pos.peano_ind.
  - cbn. lia.
  - rewrite Pos.iter_succ, Pos2Z.inj_succ, Z.pow_succ_r by lia.
    rewrite Pos2Z.inj_xO, IH. ring.
Qed.

(** A value [m * 2^e] that equals a canonical [u * 2^e'] rounds to it. *)
Lemma binary_round_exact s (m u : positive) (e e' : Z) :
  canonical_mantissa prec emax u e' = true ->
  e' <= emax - prec ->
  Zpos m * 2 ^ (e - Z.min e e') = Zpos u * 2 ^ (e' - Z.min e e') ->
  binary_round prec emax s m e = S754_finite s u e'.
Proof.
  intros Hcan He Hval. pose proof (canonical_fexp u e' Hcan) as Hf.
  unfold binary_round. change (Zpos (digits2_pos m)) with (digits m).
  destruct (Z.le_gt_cases e e') as [Hle|Hgt].
  - (* the mantissa is shifted right by [e' - e] *)
    rewrite Z.min_l in Hval by lia. rewrite Z.sub_diag, Z.mul_1_r in Hval.
    assert (Hd : digits m = digits u + (e' - e)).
    { rewrite <- Zdigits2_pos, Hval. apply digits_mul_pow2. lia. }
    rewrite Hd. replace (digits u + (e' - e) + e) with (digits u + e') by lia.
    rewrite Hf. unfold shl_align.
    destruct (e' - e) as [|p|p] eqn:E; [| |lia].
    + assert (e = e') by lia. subst e.
      replace (Zpos m) with (Zpos u * 2 ^ 0) by (rewrite Hval; reflexivity).
      replace e' with (e' - 0) at 1 by lia.
      apply binary_round_aux_exact; [lia|assumption|assumption].
    + rewrite Hval. replace e with (e' - Zpos p) by lia.
      apply binary_round_aux_exact; [lia|assumption|assumption].
  - (* the mantissa is shifted left by [e - e'] *)
    rewrite Z.min_r in Hval by lia. rewrite Z.sub_diag, Z.mul_1_r in Hval.
    assert (Hd : digits u = digits m + (e - e')).
    { rewrite <- Zdigits2_pos, <- Hval. apply digits_mul_pow2. lia. }
    replace (digits m + e) with (digits u + e') by lia.
    rewrite Hf. unfold shl_align.
    destruct (e' - e) as [|p|p] eqn:E; [lia|lia|].
    assert (Hu : Pos.iter xO m p = u).
    { apply Pos2Z.inj. rewrite pos_iter_xO, <- Hval. f_equal. f_equal. lia. }
    rewrite Hu. replace (Zpos u) with (Zpos u * 2 ^ 0) by (cbn; lia).
    replace e' with (e' - 0) at 1 by lia.
    apply binary_round_aux_exact; [lia|assumption|assumption].
Qed.

(** *** Rounding produces valid numbers *)

Lemma Zdigits2_spec m : 0 < m -> 2 ^ (Zdigits2 m - 1) <= m < 2 ^ Zdigits2 m.
Proof. destruct m as [|p|p]; [lia| |lia]. intros _. apply digits_spec. Qed.

Lemma Zdigits2_unique m d : 2 ^ (d - 1) <= m < 2 ^ d -> 0 < m -> Zdigits2 m = d.
Proof. destruct m as [|p|p]; [lia| |lia]. intros H _. now apply digits_unique. Qed.

Lemma div_pow2_upper (m d n : Z) :
  0 <= n <= d -> 0 <= m < 2 ^ d -> m / 2 ^ n < 2 ^ (d - n).
Proof.
  intros Hn Hm. assert (0 < 2 ^ n) by (apply Z.pow_pos_nonneg; lia).
  apply Z.div_lt_upper_bound; [assumption|].
  rewrite <- Z.pow_add_r by lia. replace (n + (d - n)) with d by lia. lia.
Qed.

Lemma div_pow2_lower (m d n : Z) :
  0 <= n <= d -> 2 ^ d <= m -> 2 ^ (d - n) <= m / 2 ^ n.
Proof.
  intros Hn Hm. assert (0 < 2 ^ n) by (apply Z.pow_pos_nonneg; lia).
  apply Z.div_le_lower_bound; [assumption|].
  rewrite <- Z.pow_add_r by lia. replace (n + (d - n)) with d by lia. lia.
Qed.

Lemma binary_round_aux_valid s m e l :
  0 < m ->
  e <= fexp prec emax (Zdigits2 m + e) ->
  valid_binary prec emax (binary_round_aux prec emax s m e l) = true.
Proof.
  intros Hm Hn. unfold binary_round_aux.
  pose proof (Zdigits2_spec m Hm) as [Hlo Hhi].
  set (d := Zdigits2 m) in *.
  assert (Hd : 0 < d).
  { destruct m as [|p|p]; try lia. apply digits_pos. }
  set (e1 := fexp prec emax (d + e)) in *.
  assert (He1 : emin prec emax <= e1 /\ d + e - prec <= e1 /\
                (e1 = emin prec emax \/ e1 = d + e - prec))
    by (unfold e1, fexp; lia).
  destruct (shr_fexp prec emax m e l) as [mrs1 e1'] eqn:E1.
  pose proof (shr_fexp_spec m e l ltac:(lia)) as [Hm1 He1']. rewrite E1 in Hm1, He1'.
  cbn [fst snd] in Hm1, He1'. fold d in Hm1, He1'. fold e1 in Hm1, He1'.
  rewrite Z.max_r in Hm1, He1' by lia.
  replace (e + (e1 - e)) with e1 in He1' by lia. subst e1'.
  set (m1 := shr_m mrs1) in *.
  assert (Hm1_nonneg : 0 <= m1).
  { rewrite Hm1. apply Z.div_pos; [lia|]. apply Z.pow_pos_nonneg; lia. }
  assert (Hm1_hi : m1 < 2 ^ prec).
  { rewrite Hm1. destruct (Z.le_gt_cases (e1 - e) d) as [Hle|Hgt].
    - apply Z.lt_le_trans with (2 ^ (d - (e1 - e))).
      + apply div_pow2_upper; lia.
      + apply Z.pow_le_mono_r; lia.
    - rewrite Z.div_small; [apply Z.pow_pos_nonneg; lia|].
      split; [lia|]. apply Z.lt_le_trans with (2 ^ d); [assumption|].
      apply Z.pow_le_mono_r; lia. }
  assert (Hm1_lo : e1 = emin prec emax \/ 2 ^ (prec - 1) <= m1).
  { destruct He1 as (_ & _ & [H|H]); [now left|right].
    rewrite Hm1. replace (prec - 1) with (d - 1 - (e1 - e)) by lia.
    apply div_pow2_lower; lia. }
  set (m2 := round_nearest_even m1 (loc_of_shr_record mrs1)).
  pose proof (round_nearest_even_bounds m1 (loc_of_shr_record mrs1)) as Hm2.
  fold m2 in Hm2.
  destruct (shr_fexp prec emax m2 e1 loc_Exact) as [mrs2 e2] eqn:E2.
  pose proof (shr_fexp_spec m2 e1 loc_Exact ltac:(lia)) as [Hm3 He2].
  rewrite E2 in Hm3, He2. cbn [fst snd] in Hm3, He2.
  destruct (Z.eq_dec m2 0) as [Hz|Hnz].
  { (* the rounded mantissa is zero *)
    rewrite Hz in Hm3. rewrite Z.div_0_l in Hm3
      by (apply Z.pow_nonzero; lia).
    rewrite Hm3. reflexivity. }
  assert (Hm2pos : 0 < m2) by lia.
  pose proof (Zdigits2_spec m2 Hm2pos) as [Hlo2 Hhi2].
  destruct (Z.eq_dec m2 (2 ^ prec)) as [Hpow|Hnpow].
  - (* the rounded mantissa has one digit too many *)
    assert (Hd2 : Zdigits2 m2 = prec + 1).
    { apply Zdigits2_unique; [|assumption]. rewrite Hpow.
      replace (prec + 1 - 1) with prec by lia.
      split; [lia|]. apply Z.pow_lt_mono_r; lia. }
    assert (Hm1eq : 2 ^ (prec - 1) <= m1).
    { assert (m1 = 2 ^ prec - 1) by lia.
      assert (2 * 2 ^ (prec - 1) = 2 ^ prec).
      { rewrite <- Z.pow_succ_r by lia. f_equal. lia. }
      assert (0 < 2 ^ (prec - 1)) by (apply Z.pow_pos_nonneg; lia). lia. }
    assert (Hf2 : fexp prec emax (Zdigits2 m2 + e1) = e1 + 1)
      by (rewrite Hd2; unfold fexp; lia).
    rewrite Hf2 in Hm3, He2.
    replace (Z.max 0 (e1 + 1 - e1)) with 1 in Hm3, He2 by lia.
    assert (Hm3' : shr_m mrs2 = 2 ^ (prec - 1)).
    { rewrite Hm3, Hpow. change (2 ^ 1) with 2.
      symmetry. apply Z.div_unique with (r := 0); [lia|].
      rewrite <- Z.pow_succ_r by lia. rewrite Z.add_0_r. f_equal. lia. }
    rewrite Hm3'. assert (0 < 2 ^ (prec - 1)) by (apply Z.pow_pos_nonneg; lia).
    destruct (2 ^ (prec - 1)) as [|p3|p3] eqn:E3; [lia| |lia].
    destruct (e2 <=? emax - prec) eqn:Ele; [|reflexivity].
    cbn [valid_binary]. unfold bounded. rewrite Ele, andb_true_r.
    unfold canonical_mantissa. apply Z.eqb_eq.
    change (Zpos (digits2_pos p3)) with (digits p3).
    assert (Hd3 : digits p3 = prec).
    { apply digits_unique. rewrite <- E3. split; [lia|].
      apply Z.pow_lt_mono_r; lia. }
    rewrite Hd3. unfold fexp. lia.
  - (* the rounded mantissa fits *)
    assert (Hd2 : Zdigits2 m2 <= prec).
    { destruct (Z.le_gt_cases (Zdigits2 m2) prec) as [H|H]; [assumption|].
      assert (2 ^ prec <= 2 ^ (Zdigits2 m2 - 1)) by (apply Z.pow_le_mono_r; lia).
      lia. }
    assert (Hf2 : fexp prec emax (Zdigits2 m2 + e1) = e1).
    { destruct Hm1_lo as [Hmin|Hnorm].
      - unfold fexp. lia.
      - assert (prec <= Zdigits2 m2).
        { destruct (Z.le_gt_cases prec (Zdigits2 m2)) as [H|H]; [assumption|].
          assert (2 ^ Zdigits2 m2 <= 2 ^ (prec - 1))
            by (apply Z.pow_le_mono_r; [lia|lia]).
          lia. }
        unfold fexp. lia. }
    rewrite Hf2 in Hm3, He2. rewrite Z.sub_diag in Hm3, He2.
    cbn [Z.max] in Hm3, He2. rewrite Z.div_1_r in Hm3.
    rewrite Hm3. destruct m2 as [|p2|p2]; [lia| |lia].
    destruct (e2 <=? emax - prec) eqn:Ele; [|reflexivity].
    cbn [valid_binary]. unfold bounded. rewrite Ele, andb_true_r.
    unfold canonical_mantissa. apply Z.eqb_eq.
    replace e2 with e1 by lia. exact Hf2.
Qed.

Lemma binary_round_valid s m e :
  valid_binary prec emax (binary_round prec emax s m e) = true.
Proof.
  unfold binary_round. change (Zpos (digits2_pos m)) with (digits m).
  unfold shl_align.
  destruct (fexp prec emax (digits m + e) - e) as [|p|p] eqn:E.
  - apply binary_round_aux_valid; [lia|]. rewrite Zdigits2_pos. lia.
  - apply binary_round_aux_valid; [lia|]. rewrite Zdigits2_pos. lia.
  - apply binary_round_aux_valid; [lia|].
    rewrite <- (Z.mul_1_l (Zpos (Pos.iter xO m p))) at 1.
    rewrite pos_iter_xO.
    replace (1 * (Zpos m * 2 ^ Zpos p)) with (Zpos m * 2 ^ Zpos p) by lia.
    rewrite digits_mul_pow2 by lia.
    replace (digits m + Zpos p + fexp prec emax (digits m + e))
      with (digits m + e) by lia. lia.
Qed.

Lemma binary_normalize_valid m e s :
  valid_binary prec emax (binary_normalize prec emax m e s) = true.
Proof.
  destruct m; cbn [binary_normalize]; [reflexivity| |]; apply binary_round_valid.
Qed.

Lemma binary_round_not_nan s m e : binary_round prec emax s m e <> S754_nan.
Proof.
  unfold binary_round. destruct (shl_align _ _ _) as [mz ez].
  apply binary_round_aux_not_nan. lia.
Qed.

Lemma binary_normalize_not_nan m e s : binary_normalize prec emax m e s <> S754_nan.
Proof.
  destruct m; cbn [binary_normalize]; [discriminate| |]; apply binary_round_not_nan.
Qed.

Lemma SFadd_finite_not_nan s m e y :
  y <> S754_nan -> SFadd prec emax (S754_finite s m e) y <> S754_nan.
Proof.
  intros Hy. destruct y as [sy|sy| |sy my ey]; cbn [SFadd];
    [discriminate|discriminate|congruence|].
  apply binary_normalize_not_nan.
Qed.

Lemma SFdiv_finite_not_nan s m e y :
  y <> S754_nan -> SFdiv prec emax (S754_finite s m e) y <> S754_nan.
Proof.
  intros Hy. destruct y as [sy|sy| |sy my ey]; cbn [SFdiv];
    [discriminate|discriminate|congruence|].
  unfold SFdiv_core_binary.
  set (m' := match _ - _ - _ with Z0 => _ | Zpos _ => _ | Zneg _ => _ end).
  assert (Hm' : 0 <= m').
  { unfold m'. destruct (_ - _ - _); [lia| |lia].
    apply Z.shiftl_nonneg. lia. }
  pose proof (Z.div_pos m' (Zpos my) Hm' ltac:(lia)) as Hq.
  unfold Z.div in Hq. destruct (Z.div_eucl m' (Zpos my)) as [q r].
  apply binary_round_aux_not_nan. assumption.
Qed.

Lemma SFmul_valid_r x s m e :
  digits m = prec ->
  valid_binary prec emax (SFmul prec emax x (S754_finite s m e)) = true.
Proof.
  intros Hm. destruct x as [sx|sx| |sx mx ex]; cbn [SFmul]; try reflexivity.
  apply binary_round_aux_valid; [lia|].
  rewrite Zdigits2_pos.
  assert (prec <= digits (mx * m)).
  { rewrite <- Hm. apply digits_le. nia. }
  unfold fexp. lia.
Qed.

Lemma SFadd_valid x y :
  valid_binary prec emax x = true ->
  valid_binary prec emax y = true ->
  valid_binary prec emax (SFadd prec emax x y) = true.
Proof.
  intros Hx Hy.
  destruct x as [sx|sx| |sx mx ex], y as [sy|sy| |sy my ey]; cbn [SFadd];
    try reflexivity; try assumption.
  - destruct sx, sy; reflexivity.
  - destruct sx, sy; reflexivity.
  - apply binary_normalize_valid.
Qed.

Lemma valid_mantissa_lt s m e :
  valid_binary prec emax (S754_finite s m e) = true -> Zpos m < 2 ^ prec.
Proof.
  cbn [valid_binary]. unfold bounded. intros H.
  apply andb_true_iff in H as [Hcan _]. apply canonical_fexp in Hcan.
  pose proof (digits_spec m) as [_ Hhi].
  apply Z.lt_le_trans with (2 ^ digits m); [assumption|].
  apply Z.pow_le_mono_r; [lia|]. unfold fexp in Hcan. lia.
Qed.

End Rounding.

Lemma prec_pos : 0 < prec.
Proof. reflexivity. Qed.

(** ** Canonical forms of binary64 values *)

Lemma digits_le_prec (p : positive) : Zpos p < 2 ^ 53 -> digits p <= 53.
Proof.
  intros Hp. pose proof (digits_spec prec prec_pos p) as [Hlo Hhi].
  destruct (Z.le_gt_cases (digits p) 53) as [H|H]; [assumption|].
  assert (2 ^ 53 <= 2 ^ (digits p - 1)) by (apply Z.pow_le_mono_r; lia). lia.
Qed.

Lemma canon_m_eq (p : positive) :
  Zpos p < 2 ^ 53 -> Zpos (canon_m p) = Zpos p * 2 ^ (53 - digits p).
Proof.
  intros Hp. pose proof (digits_le_prec p Hp).
  assert (0 < 2 ^ (53 - digits p)) by (apply Z.pow_pos_nonneg; lia).
  unfold canon_m. apply Z2Pos.id. nia.
Qed.

Lemma canon_digits (p : positive) : Zpos p < 2 ^ 53 -> digits (canon_m p) = 53.
Proof.
  intros Hp. pose proof (digits_le_prec p Hp).
  rewrite <- (Zdigits2_pos prec prec_pos), canon_m_eq by assumption.
  rewrite (digits_mul_pow2 prec prec_pos) by lia. lia.
Qed.

Lemma canon_canonical (p : positive) (e : Z) :
  Zpos p < 2 ^ 53 -> -1022 <= e ->
  canonical_mantissa prec emax (canon_m p) (canon_e p e) = true.
Proof.
  intros Hp He. pose proof (digits_pos prec prec_pos p).
  unfold canonical_mantissa. apply Z.eqb_eq.
  change (Zpos (digits2_pos ?x)) with (digits x).
  rewrite canon_digits by assumption.
  unfold canon_e, fexp, SpecFloat.emin, prec, emax. lia.
Qed.

Lemma binary_round_small (s : bool) (p : positive) (e : Z) :
  Zpos p < 2 ^ 53 -> -1022 <= e <= 971 ->
  binary_round prec emax s p e = S754_finite s (canon_m p) (canon_e p e).
Proof.
  intros Hp He. pose proof (digits_le_prec p Hp) as Hd.
  apply (binary_round_exact prec emax prec_pos).
  - now apply canon_canonical.
  - unfold canon_e, prec, emax. lia.
  - unfold canon_e. rewrite Z.min_r by lia.
    rewrite canon_m_eq, Z.sub_diag, Z.mul_1_r by assumption.
    f_equal; try (f_equal; lia).
Qed.

Lemma binary_round_shift (s : bool) (p q : positive) (i e : Z) :
  0 <= i -> Zpos p < 2 ^ 53 -> -1022 <= e <= 971 ->
  Zpos q = Zpos p * 2 ^ i ->
  binary_round prec emax s q (e - i) = binary_round prec emax s p e.
Proof.
  intros Hi Hp He Hq. rewrite (binary_round_small s p e) by assumption.
  pose proof (digits_le_prec p Hp) as Hd.
  apply (binary_round_exact prec emax prec_pos).
  - now apply canon_canonical.
  - unfold canon_e, prec, emax. lia.
  - rewrite Hq, canon_m_eq by assumption. unfold canon_e.
    rewrite <- !Z.mul_assoc, <- !Z.pow_add_r by lia.
    f_equal; try (f_equal; lia).
Qed.

Lemma shl_align_fst (m : positive) (e e' : Z) :
  e' <= e -> Zpos (fst (shl_align m e e')) = Zpos m * 2 ^ (e - e').
Proof.
  intros He. unfold shl_align. destruct (e' - e) as [|d|d] eqn:E; cbn [fst].
  - replace (e - e') with 0 by lia. cbn. lia.
  - lia.
  - rewrite (pos_iter_xO prec prec_pos). f_equal; try (f_equal; lia).
Qed.

(** The sum of two Numbers of the same sign is the rounded sum of the
    mantissas at the smaller exponent. *)
Lemma add_same_sign (s : bool) (M1 M2 : positive) (E1 E2 : Z) :
  E2 <= E1 ->
  add (S754_finite s M1 E1) (S754_finite s M2 E2) =
  binary_round prec emax s (Z.to_pos (Zpos M1 * 2 ^ (E1 - E2) + Zpos M2)) E2.
Proof.
  intros HE. unfold add. cbn [SFadd]. rewrite Z.min_r by assumption.
  assert (0 < 2 ^ (E1 - E2)) by (apply Z.pow_pos_nonneg; lia).
  rewrite (shl_align_fst M1 E1 E2) by assumption.
  rewrite (shl_align_fst M2 E2 E2) by lia. rewrite Z.sub_diag, Z.mul_1_r.
  destruct (Zpos M1 * 2 ^ (E1 - E2)) as [|x|x] eqn:Ex; [lia| |lia].
  destruct s; cbn [cond_Zopp Z.opp Z.add binary_normalize]; reflexivity.
Qed.

Lemma digits_mul_le (a b : positive) : digits (a * b) <= digits a + digits b.
Proof.
  pose proof (digits_spec prec prec_pos a) as [_ Ha].
  pose proof (digits_spec prec prec_pos b) as [_ Hb].
  pose proof (digits_spec prec prec_pos (a * b)) as [Hab _].
  pose proof (digits_pos prec prec_pos a). pose proof (digits_pos prec prec_pos b).
  destruct (Z.le_gt_cases (digits (a * b)) (digits a + digits b)) as [H1|H1]; [assumption|].
  assert (2 ^ (digits a + digits b) <= 2 ^ (digits (a * b) - 1))
    by (apply Z.pow_le_mono_r; lia).
  rewrite Z.pow_add_r in * by lia. rewrite Pos2Z.inj_mul in Hab. nia.
Qed.

Lemma of_Z_pos (k : positive) :
  Zpos k < 2 ^ 53 -> of_Z (Zpos k) = S754_finite false (canon_m k) (canon_e k 0).
Proof. intros Hk. unfold of_Z. cbn [binary_normalize]. now apply binary_round_small. Qed.

(** ** Single-precision samples *)

Lemma binary_round_aux_sign (prec emax : Z) (s : bool) (m e : Z) (l : location) :
  match binary_round_aux prec emax s m e l with
  | S754_zero s' | S754_infinity s' | S754_finite s' _ _ => s' = s
  | S754_nan => True
  end.
Proof.
  unfold binary_round_aux.
  destruct (shr_fexp prec emax m e l) as [mrs1 e1].
  destruct (shr_fexp prec emax _ e1 loc_Exact) as [mrs2 e2].
  destruct (shr_m mrs2); [reflexivity| |exact I].
  destruct (_ <=? _); reflexivity.
Qed.

(** Rounding to single precision twice is rounding once: what a
    [Float32Array] holds is a fixed point of [fround]. *)
Lemma fround_idempotent (x : number) : fround (fround x) = fround x.
Proof.
  destruct x as [s|s| |s M E]; try reflexivity.
  change (fround (S754_finite s M E)) with (to_double (binary_round 24 128 s M E)).
  pose proof (binary_round_valid 24 128 ltac:(lia) s M E) as Hv.
  assert (Hs : match binary_round 24 128 s M E with
               | S754_zero s' | S754_infinity s' | S754_finite s' _ _ => s' = s
               | S754_nan => True
               end).
  { unfold binary_round. destruct (shl_align _ _ _) as [mz ez].
    apply binary_round_aux_sign. }
  destruct (binary_round 24 128 s M E) as [s'|s'| |s' m e]; try reflexivity.
  subst s'. cbn [to_double].
  pose proof (valid_mantissa_lt 24 128 ltac:(lia) s m e Hv) as Hm.
  cbn [valid_binary] in Hv. unfold bounded in Hv.
  apply andb_true_iff in Hv as [Hcan Hle].
  pose proof (canonical_fexp 24 128 ltac:(lia) m e Hcan) as Hf. apply Z.leb_le in Hle.
  assert (He : -149 <= e <= 104) by (unfold fexp, SpecFloat.emin in Hf; lia).
  assert (Hm53 : Zpos m < 2 ^ 53).
  { apply Z.lt_trans with (2 ^ 24); [assumption|]. reflexivity. }
  rewrite (binary_round_small s m e) by (assumption || lia).
  cbn [fround].
  assert (Hback : binary_round 24 128 s (canon_m m) (canon_e m e) = S754_finite s m e).
  { pose proof (digits_le_prec m Hm53). pose proof (digits_pos prec prec_pos m).
    apply (binary_round_exact 24 128 ltac:(lia)); [assumption|lia|].
    unfold canon_e. rewrite Z.min_l by lia.
    rewrite canon_m_eq, Z.sub_diag, Z.mul_1_r by assumption.
    f_equal; try (f_equal; lia). }
  rewrite Hback. cbn [to_double]. apply binary_round_small; [assumption|lia].
Qed.

(** ** Comparison of Numbers *)

Lemma SFcompare_antisym (x y : spec_float) :
  SFcompare y x = option_map CompOpp (SFcompare x y).
Proof.
  destruct x as [sx|sx| |sx mx ex], y as [sy|sy| |sy my ey]; cbn [SFcompare option_map];
    try reflexivity;
    try (destruct sx; reflexivity); try (destruct sy; reflexivity);
    try (destruct sx, sy; reflexivity).
  f_equal. pose proof (Pos.compare_cont_antisym mx my Eq) as Hm. cbn [CompOpp] in Hm.
  rewrite (Z.compare_antisym ex ey).
  destruct sx, sy; try reflexivity;
    destruct (ex ?= ey); cbn [CompOpp]; try reflexivity; rewrite <- Hm;
    now rewrite ?CompOpp_involutive.
Qed.

Lemma SFcompare_not_nan (x y : spec_float) :
  x <> S754_nan -> y <> S754_nan -> exists c, SFcompare x y = Some c.
Proof.
  intros Hx Hy.
  destruct x as [sx|sx| |sx mx ex], y as [sy|sy| |sy my ey]; cbn [SFcompare];
    try congruence; eauto.
Qed.

Lemma clamp_bounds (lo hi c : number) :
  (exists s m e, lo = S754_finite s m e) ->
  (exists s m e, hi = S754_finite s m e) ->
  leb lo hi = true ->
  c <> S754_nan ->
  leb lo (max2 lo (min2 hi c)) = true /\ leb (max2 lo (min2 hi c)) hi = true.
Proof.
  intros (sl & ml & el & ->) (sh & mh & eh & ->) Hlh Hc.
  set (lo := S754_finite sl ml el) in *. set (hi := S754_finite sh mh eh) in *.
  assert (Hll : leb lo lo = true).
  { unfold leb, SFleb. pose proof (SFcompare_antisym lo lo) as H.
    destruct (SFcompare lo lo) as [[| |]|] eqn:E; try reflexivity; discriminate. }
  assert (Hhh : leb hi hi = true).
  { unfold leb, SFleb. pose proof (SFcompare_antisym hi hi) as H.
    destruct (SFcompare hi hi) as [[| |]|] eqn:E; try reflexivity; discriminate. }
  assert (Hmin : min2 hi c = hi \/ (min2 hi c = c /\ leb c hi = true)).
  { unfold min2. destruct (SFcompare_not_nan hi c) as [o Ho]; [discriminate|assumption|].
    pose proof (SFcompare_antisym hi c) as Ha. rewrite Ho in *.
    destruct o; [right|left|right]; unfold leb, SFleb; rewrite ?Ha; auto. }
  destruct Hmin as [->|[-> Hch]].
  - assert (Hmax : max2 lo hi = hi).
    { unfold max2. unfold leb, SFleb in Hlh.
      destruct (SFcompare lo hi) as [[| |]|]; try discriminate; reflexivity. }
    rewrite Hmax. auto.
  - destruct (SFcompare_not_nan lo c) as [o Ho]; [discriminate|assumption|].
    assert (Hmax : max2 lo c = lo \/ (max2 lo c = c /\ leb lo c = true)).
    { unfold max2, leb, SFleb. rewrite Ho. destruct o; auto. }
    destruct Hmax as [->|[-> Hlc]]; auto.
Qed.

(** ** The classifier index *)

(** The magnitude of the floor of a valid finite Number is a non-negative
    integer [a], held with an exponent of at least -52. *)
Lemma abs_floor_shape (s : bool) (m : positive) (e : Z) :
  valid_binary prec emax (S754_finite s m e) = true ->
  exists a : Z,
    0 <= a /\
    ((a = 0 /\ abs (floor (S754_finite s m e)) = zero) \/
     exists U E,
       abs (floor (S754_finite s m e)) = S754_finite false U E /\
       -52 <= E /\
       Zpos U * 2 ^ (E - Z.min E (-50)) = a * 2 ^ (- Z.min E (-50))).
Proof.
  intros Hvalid. cbn [floor]. destruct (0 <=? e) eqn:He.
  - apply Z.leb_le in He. exists (Zpos m * 2 ^ e).
    assert (0 < 2 ^ e) by (apply Z.pow_pos_nonneg; lia).
    split; [nia|]. right. exists m, e. split; [reflexivity|]. split; [lia|].
    rewrite Z.min_r by lia. rewrite <- Z.mul_assoc, <- Z.pow_add_r by lia.
    f_equal; try (f_equal; lia).
  - apply Z.leb_gt in He.
    pose proof (valid_mantissa_lt prec emax prec_pos s m e Hvalid) as Hm.
    change (2 ^ prec) with (2 ^ 53) in Hm.
    set (z := Z.shiftr (cond_Zopp s (Zpos m)) (- e)).
    assert (Hz : - 2 ^ 53 < z < 2 ^ 53).
    { unfold z. rewrite Z.shiftr_div_pow2 by lia.
      assert (Hp : 0 < 2 ^ (- e)) by (apply Z.pow_pos_nonneg; lia).
      destruct s; cbn [cond_Zopp].
      - split.
        + apply Z.lt_le_trans with (- Zpos m); [lia|].
          apply Z.div_le_lower_bound; [assumption|]. nia.
        + apply Z.le_lt_trans with 0; [|lia].
          apply Z.lt_succ_r. apply Z.div_lt_upper_bound; [assumption|]. nia.
      - split.
        + apply Z.lt_le_trans with 0; [lia|]. apply Z.div_pos; lia.
        + apply Z.le_lt_trans with (Zpos m); [|assumption].
          apply Z.lt_succ_r. apply Z.div_lt_upper_bound; [assumption|]. nia. }
    assert (Hshape : forall (s' : bool) (p : positive),
               Zpos p < 2 ^ 53 ->
               exists U E,
                 abs (binary_round prec emax s' p 0) = S754_finite false U E /\
                 -52 <= E /\
                 Zpos U * 2 ^ (E - Z.min E (-50)) = Zpos p * 2 ^ (- Z.min E (-50))).
    { intros s' p Hp. rewrite binary_round_small by (assumption || lia).
      pose proof (digits_le_prec p Hp) as Hd53.
      pose proof (digits_pos prec prec_pos p) as Hd.
      exists (canon_m p), (canon_e p 0). split; [reflexivity|].
      unfold canon_e. split; [lia|]. rewrite canon_m_eq by assumption.
      rewrite <- Z.mul_assoc, <- Z.pow_add_r by lia. f_equal; try (f_equal; lia). }
    destruct z as [|p|p] eqn:Ez; cbn [binary_normalize].
    + exists 0. split; [lia|]. left. now destruct s.
    + exists (Zpos p). split; [lia|]. right. apply Hshape. lia.
    + exists (Zpos p). split; [lia|]. right. apply Hshape. lia.
Qed.

(** The remainder modulo 5 of such an integer. *)
Lemma rem_five (U : positive) (E a : Z) :
  0 <= a -> -52 <= E ->
  Zpos U * 2 ^ (E - Z.min E (-50)) = a * 2 ^ (- Z.min E (-50)) ->
  rem (S754_finite false U E) (of_Z 5) = of_Z (a mod 5).
Proof.
  intros Ha HE Hval.
  change (of_Z 5) with (S754_finite false 5629499534213120 (-50)).
  cbn [rem cond_Zopp]. rewrite Hval.
  set (k := Z.min E (-50)) in *.
  assert (HD : 5629499534213120 * 2 ^ (-50 - k) = 5 * 2 ^ (- k)).
  { change 5629499534213120 with (5 * 2 ^ 50).
    rewrite <- Z.mul_assoc, <- Z.pow_add_r by lia. f_equal; try (f_equal; lia). }
  rewrite HD.
  assert (Hp : 0 < 2 ^ (- k)) by (apply Z.pow_pos_nonneg; lia).
  rewrite Z.mul_mod_distr_r by lia.
  pose proof (Z.mod_pos_bound a 5 ltac:(lia)) as Hj.
  assert (Hk : k = -50 \/ k = -51 \/ k = -52) by lia.
  assert (Hj' : a mod 5 = 0 \/ a mod 5 = 1 \/ a mod 5 = 2 \/ a mod 5 = 3 \/ a mod 5 = 4)
    by lia.
  destruct Hk as [-> | [-> | ->]];
    destruct Hj' as [-> | [-> | [-> | [-> | ->]]]]; reflexivity.
Qed.

Lemma weighted_valid (f : FeatureVector) :
  valid_binary prec emax (weighted f) = true.
Proof.
  unfold weighted, add, mul.
  repeat apply (SFadd_valid prec emax prec_pos);
    apply (SFmul_valid_r prec emax prec_pos); reflexivity.
Qed.

(** When the weighted sum is NaN or infinite, so is the index, and the
    lookup finds nothing. *)
Lemma classIndex_not_finite (f : FeatureVector) :
  is_finite (weighted f) = false ->
  classIndex f = NaN /\ array_get VEHICLES (classIndex f) = None.
Proof.
  unfold classIndex, score. fold (weighted f).
  destruct (weighted f) as [s|s| |s m e]; try discriminate; intros _; split; reflexivity.
Qed.

(** ** Sums of equal samples *)

Lemma add_step (s : bool) (m k : positive) (e : Z) :
  Zpos m * Zpos (Pos.succ k) < 2 ^ 53 -> -1022 <= e <= 971 ->
  add (binary_round prec emax s (m * k) e) (binary_round prec emax s m e) =
  binary_round prec emax s (m * Pos.succ k) e.
Proof.
  intros Hk He.
  assert (Hm : Zpos m < 2 ^ 53) by nia.
  assert (Hmk : Zpos (m * k) < 2 ^ 53) by (rewrite Pos2Z.inj_mul; nia).
  assert (Hmk' : Zpos (m * Pos.succ k) < 2 ^ 53) by (rewrite Pos2Z.inj_mul; assumption).
  rewrite (binary_round_small s (m * k) e), (binary_round_small s m e) by assumption.
  assert (Hdd : digits m <= digits (m * k)) by (apply (digits_le prec prec_pos); nia).
  pose proof (digits_le_prec _ Hm). pose proof (digits_le_prec _ Hmk).
  rewrite add_same_sign by (unfold canon_e; lia).
  replace (canon_e m e) with (e - (53 - digits m)) by reflexivity.
  apply binary_round_shift; [lia|assumption|assumption|].
  assert (Hpos : 0 < 2 ^ (53 - digits m)) by (apply Z.pow_pos_nonneg; lia).
  rewrite Z2Pos.id.
  - rewrite !canon_m_eq by assumption. unfold canon_e.
    rewrite <- Z.mul_assoc, <- Z.pow_add_r by lia.
    replace (53 - digits (m * k) + (e - (53 - digits (m * k)) - (e - (53 - digits m))))
      with (53 - digits m) by lia.
    rewrite !Pos2Z.inj_mul, Pos2Z.inj_succ. ring.
  - assert (0 < 2 ^ (canon_e (m * k) e - canon_e m e))
      by (apply Z.pow_pos_nonneg; unfold canon_e; lia).
    nia.
Qed.

Lemma fold_left_snoc {A B} (f : A -> B -> A) (l : list B) (x : B) (a : A) :
  fold_left f (l ++ [x]) a = f (fold_left f l a) x.
Proof. now rewrite fold_left_app. Qed.

(** Adding up [k] copies of [m * 2^e] from 0 is exact as long as [m * k]
    fits in 53 bits. *)
Lemma sum_replicate (s : bool) (m k : positive) (e : Z) :
  Zpos m * Zpos k < 2 ^ 53 -> -1022 <= e <= 971 ->
  fold_left add (replicate (Pos.to_nat k) (binary_round prec emax s m e)) zero =
  binary_round prec emax s (m * k) e.
Proof.
  intros Hk He. induction k as [|k IH] using Pos.peano_ind.
  - rewrite Pos.mul_1_r. cbn [Pos.to_nat Pos.iter_op replicate fold_left].
    rewrite (binary_round_small s m e) by (assumption || lia). reflexivity.
  - rewrite Pos2Nat.inj_succ, replicate_S_end, fold_left_snoc.
    rewrite IH by lia. now apply add_step.
Qed.

Lemma new_location_zero (n : Z) : new_location n 0 = loc_Exact.
Proof.
  unfold new_location, new_location_even, new_location_odd.
  destruct (Z.even n); reflexivity.
Qed.

(** Dividing the exact sum of [k] copies by [k] gives the sample back. *)
Lemma div_sum (s : bool) (m k : positive) (e : Z) :
  Zpos m * Zpos k < 2 ^ 53 -> -1021 <= e <= 971 ->
  div (binary_round prec emax s (m * k) e) (of_Z (Zpos k)) =
  binary_round prec emax s m e.
Proof.
  intros Hk He.
  assert (Hm : Zpos m < 2 ^ 53) by nia.
  assert (Hk' : Zpos k < 2 ^ 53) by nia.
  assert (Hmk : Zpos (m * k) < 2 ^ 53) by (rewrite Pos2Z.inj_mul; assumption).
  unfold of_Z. cbn [binary_normalize].
  rewrite (binary_round_small s (m * k) e), (binary_round_small false k 0),
    (binary_round_small s m e) by (assumption || lia).
  pose proof (digits_le_prec _ Hm) as Hdm. pose proof (digits_le_prec _ Hk') as Hdk.
  pose proof (digits_le_prec _ Hmk) as Hdmk.
  pose proof (digits_pos prec prec_pos m). pose proof (digits_pos prec prec_pos k).
  pose proof (digits_pos prec prec_pos (m * k)).
  pose proof (digits_mul_le m k) as Hle.
  assert (Hge : digits k <= digits (m * k)) by (apply (digits_le prec prec_pos); nia).
  unfold div. cbn [SFdiv]. unfold SFdiv_core_binary.
  rewrite !(Zdigits2_pos prec prec_pos), !canon_digits by assumption.
  set (t := canon_e (m * k) e - canon_e k 0).
  assert (Ht : t = e + digits (m * k) - digits k) by (unfold t, canon_e; lia).
  replace (53 + canon_e (m * k) e - (53 + canon_e k 0)) with t by (unfold t; lia).
  assert (He' : Z.min (fexp prec emax t) t = t - 53)
    by (unfold fexp, SpecFloat.emin, prec, emax; lia).
  rewrite He'. replace (t - (t - 53)) with 53 by lia.
  rewrite Z.shiftl_mul_pow2 by lia.
  set (q := Zpos m * 2 ^ (53 - digits (m * k) + digits k)).
  assert (Hq : Zpos (canon_m (m * k)) * 2 ^ 53 = Zpos (canon_m k) * q).
  { rewrite !canon_m_eq by assumption. unfold q. rewrite Pos2Z.inj_mul.
    replace (Zpos m * Zpos k * 2 ^ (53 - digits (m * k)) * 2 ^ 53)
      with (Zpos m * Zpos k * (2 ^ (53 - digits (m * k)) * 2 ^ 53)) by ring.
    replace (Zpos k * 2 ^ (53 - digits k) * (Zpos m * 2 ^ (53 - digits (m * k) + digits k)))
      with (Zpos m * Zpos k * (2 ^ (53 - digits k) * 2 ^ (53 - digits (m * k) + digits k)))
      by ring.
    rewrite <- !Z.pow_add_r by lia. f_equal; try (f_equal; lia). }
  assert (Hdiv : Z.div_eucl (Zpos (canon_m (m * k)) * 2 ^ 53) (Zpos (canon_m k)) = (q, 0)).
  { rewrite Hq.
    pose proof (Z.div_mul q (Zpos (canon_m k)) ltac:(lia)) as Hd.
    pose proof (Z.mod_mul q (Zpos (canon_m k)) ltac:(lia)) as Hr.
    rewrite (Z.mul_comm (Zpos (canon_m k)) q).
    unfold Z.div, Z.modulo in Hd, Hr.
    destruct (Z.div_eucl (q * Zpos (canon_m k)) (Zpos (canon_m k))) as [q' r'].
    now subst. }
  rewrite Hdiv, new_location_zero, xorb_false_r.
  assert (Hqu : q = Zpos (canon_m m) * 2 ^ (digits k + digits m - digits (m * k))).
  { rewrite canon_m_eq by assumption. unfold q.
    rewrite <- Z.mul_assoc, <- Z.pow_add_r by lia. f_equal; try (f_equal; lia). }
  rewrite Hqu.
  replace (t - 53) with (canon_e m e - (digits k + digits m - digits (m * k)))
    by (unfold canon_e; lia).
  apply (binary_round_aux_exact prec emax prec_pos).
  - lia.
  - apply canon_canonical; [assumption|lia].
  - unfold canon_e, prec, emax. lia.
Qed.

(** A loop over equal samples whose body leaves the accumulator alone. *)
Lemma fold_left_replicate_fixed {A B} (f : A -> B -> A) (n : nat) (c : B) (a : A) :
  f a c = a -> fold_left f (replicate n c) a = a.
Proof.
  intros Hf. induction n as [|n IH]; [reflexivity|].
  cbn [replicate fold_left]. now rewrite Hf.
Qed.

(** Once the mean is such that every deviation [x - mean] is a zero, the
    standard deviation and the skewness are +0. *)
Lemma deviation_zero_features (gray : list number) (n : nat) (c mu : number) (sd : bool)
      (M : positive) (E : Z) :
  gray = replicate n c ->
  div (fold_left (fun mean x => add mean x) gray zero)
      (of_Z (Z.of_nat (length gray))) = mu ->
  of_Z (Z.of_nat (length gray)) = S754_finite false M E ->
  sub c mu = S754_zero sd ->
  featureSignature gray = Normal {| mean := mu; std := zero; skew := zero |}.
Proof.
  intros -> Hmu Hn Hd. unfold featureSignature. cbv zeta. rewrite Hmu, Hn.
  assert (Hvar : fold_left (fun variance x => add variance (mul (sub x mu) (sub x mu)))
                           (replicate n c) zero = zero).
  { apply fold_left_replicate_fixed. rewrite Hd. now destruct sd. }
  rewrite Hvar.
  change (sqrt (div zero (S754_finite false M E))) with zero.
  assert (Hskew : fold_left (fun skew x =>
                               add skew (mul (mul (div (sub x mu) (add zero epsilon))
                                                  (div (sub x mu) (add zero epsilon)))
                                             (div (sub x mu) (add zero epsilon))))
                            (replicate n c) zero = zero).
  { apply fold_left_replicate_fixed. rewrite Hd. now destruct sd. }
  rewrite Hskew. reflexivity.
Qed.

Lemma sub_self (s : bool) (M : positive) (E : Z) :
  sub (S754_finite s M E) (S754_finite s M E) = zero.
Proof.
  unfold sub. cbn [SFsub]. now rewrite Z.sub_diag.
Qed.

(** A finite sample that single-precision rounding leaves alone is
    [m * 2^e] with a mantissa of at most 24 bits. *)
Lemma float32_sample_shape (s : bool) (M : positive) (E : Z) :
  fround (S754_finite s M E) = S754_finite s M E ->
  exists (m : positive) (e : Z),
    Zpos m < 2 ^ 24 /\ -149 <= e <= 104 /\
    S754_finite s M E = binary_round prec emax s m e.
Proof.
  unfold fround.
  pose proof (binary_round_valid 24 128 ltac:(lia) s M E) as Hv.
  destruct (binary_round 24 128 s M E) as [s'|s'| |s' m e]; cbn [to_double];
    intros H; try discriminate.
  pose proof (valid_mantissa_lt 24 128 ltac:(lia) s' m e Hv) as Hm.
  cbn [valid_binary] in Hv. unfold bounded in Hv.
  apply andb_true_iff in Hv as [Hcan Hle].
  apply (canonical_fexp 24 128 ltac:(lia)) in Hcan. apply Z.leb_le in Hle.
  assert (He : -149 <= e <= 104) by (unfold fexp, SpecFloat.emin in Hcan; lia).
  assert (Hm53 : Zpos m < 2 ^ 53).
  { apply Z.lt_trans with (2 ^ 24); [assumption|]. reflexivity. }
  exists m, e. split; [assumption|]. split; [assumption|].
  rewrite (binary_round_small s' m e) in H by (assumption || lia).
  inversion H; subst. symmetry. apply binary_round_small; [assumption|lia].
Qed.

Lemma fold_left_replicate_map {A B C} (f : A -> C -> A) (g : B -> C)
      (n : nat) (c : B) (a : A) :
  fold_left (fun a x => f a (g x)) (replicate n c) a =
  fold_left f (replicate n (g c)) a.
Proof.
  revert a. induction n as [|n IH]; intros a; [reflexivity|].
  cbn [replicate fold_left]. apply IH.
Qed.

Lemma near_one_eq : near_one = binary_round prec emax false 16777215 (-24).
Proof. vm_compute. reflexivity. Qed.

Lemma long_sum :
  fold_left add (replicate (Pos.to_nat long_length) near_one) zero =
  S754_finite false 4503599635759088 (-23).
Proof.
  change long_length with (Pos.succ 536870944).
  rewrite Pos2Nat.inj_succ, replicate_S_end, fold_left_snoc, near_one_eq.
  rewrite sum_replicate by lia.
  vm_compute. reflexivity.
Qed.

Lemma long_variance (mu : number) :
  mul (sub near_one mu) (sub near_one mu) = binary_round prec emax false 1 (-106) ->
  fold_left (fun variance x => add variance (mul (sub x mu) (sub x mu)))
            (replicate (Pos.to_nat long_length) near_one) zero =
  S754_finite false 4503599904194560 (-129).
Proof.
  intros Hd.
  rewrite (fold_left_replicate_map add (fun x => mul (sub x mu) (sub x mu))).
  rewrite Hd, sum_replicate by (unfold long_length; lia).
  vm_compute. reflexivity.
Qed.

(** ** The properties of the specification *)

(** *** C1: the feature extractor on an empty buffer *)

(** C1, as the code has it. Applied to a zero-length intensity buffer,
    [featureSignature] raises no error: it returns the feature vector whose
    mean, standard deviation and skewness are all NaN. *)
Theorem featureSignature_empty :
  featureSignature [] = Normal {| mean := NaN; std := NaN; skew := NaN |}.
Proof. reflexivity. Qed.

(** C1 fails as stated: the call on the empty buffer does not end in an
    InvalidInput error. *)
Lemma featureSignature_empty_not_InvalidInput :
  featureSignature [] <> Throw "InvalidInput".
Proof. discriminate. Qed.

(** *** C2: the classifier index *)

(** C2, as the code has it. For every feature vector for which
    [mean * 7 + std * 11 + skew * 13] is a finite Number, the classifier
    index is an integer with [0 <= index < K] (K = 5), so that
    [VEHICLES[index]] is an entry of the catalog. *)
Theorem classIndex_in_bounds (f : FeatureVector) :
  is_finite (add (add (mul (mean f) (of_Z 7)) (mul (std f) (of_Z 11)))
                 (mul (skew f) (of_Z 13))) = true ->
  exists i : Z,
    0 <= i < Z.of_nat (length VEHICLES) /\
    classIndex f = of_Z i /\
    array_get VEHICLES (classIndex f) = VEHICLES !! Z.to_nat i /\
    is_Some (VEHICLES !! Z.to_nat i).
Proof.
  intros Hfin. fold (weighted f) in Hfin.
  pose proof (weighted_valid f) as Hvalid.
  assert (Hidx : exists a, 0 <= a /\ classIndex f = of_Z (a mod 5)).
  { unfold classIndex, score. fold (weighted f).
    change (of_Z (Z.of_nat (length VEHICLES))) with (of_Z 5).
    destruct (weighted f) as [s|s| |s m e]; try discriminate.
    - exists 0. split; [lia|]. reflexivity.
    - destruct (abs_floor_shape s m e Hvalid) as (a & Ha & [[-> Hz]|(U & E & HU & HE & Hval)]).
      + exists 0. split; [lia|]. rewrite Hz. reflexivity.
      + exists a. split; [assumption|]. rewrite HU. now apply rem_five. }
  destruct Hidx as (a & Ha & Hidx). exists (a mod 5).
  pose proof (Z.mod_pos_bound a 5 ltac:(lia)) as Hj.
  split; [cbn; lia|]. split; [assumption|]. rewrite Hidx.
  assert (Hj' : a mod 5 = 0 \/ a mod 5 = 1 \/ a mod 5 = 2 \/ a mod 5 = 3 \/ a mod 5 = 4)
    by lia.
  destruct Hj' as [-> | [-> | [-> | [-> | ->]]]]; (split; [reflexivity|eexists; reflexivity]).
Qed.

(** The bound on the example features of the specification. *)
Lemma classIndex_in_bounds_witness :
  exists i : Z,
    0 <= i < Z.of_nat (length VEHICLES) /\
    classIndex {| mean := decimal 5 1; std := decimal 2 1; skew := decimal 1 1 |} = of_Z i /\
    array_get VEHICLES
              (classIndex {| mean := decimal 5 1; std := decimal 2 1; skew := decimal 1 1 |})
    = VEHICLES !! Z.to_nat i /\
    is_Some (VEHICLES !! Z.to_nat i).
Proof.
  apply (classIndex_in_bounds
           {| mean := decimal 5 1; std := decimal 2 1; skew := decimal 1 1 |}).
  reflexivity.
Defined.

(** C2 fails as stated: the feature vector of the empty buffer, all NaN,
    has the index NaN, and [VEHICLES[NaN]] is [undefined]. *)
Lemma classIndex_nan :
  classIndex {| mean := NaN; std := NaN; skew := NaN |} = NaN /\
  leb zero (classIndex {| mean := NaN; std := NaN; skew := NaN |}) = false /\
  array_get VEHICLES (classIndex {| mean := NaN; std := NaN; skew := NaN |}) = None.
Proof. repeat split; reflexivity. Qed.

(** *** C3: the confidence *)

(** C3. For every [std >= 0] the confidence
    [clamp(1 / (1 + exp(-std * 2.0)), 0.2, 0.98)] lies between 0.2 and 0.98,
    whatever approximation of the exponential [Math.exp] is, as long as it
    returns a Number (not NaN) on the Number [-std * 2.0]. *)
Theorem confidence_bounds (exp : number -> number) (sd : number) :
  leb zero sd = true ->
  is_nan (exp (mul (neg sd) (of_Z 2))) = false ->
  leb (decimal 2 1) (sigmoidConfidence exp sd) = true /\
  leb (sigmoidConfidence exp sd) (decimal 98 2) = true.
Proof.
  intros _ Hexp. unfold sigmoidConfidence.
  apply clamp_bounds.
  - vm_compute. eauto.
  - vm_compute. eauto.
  - reflexivity.
  - change (of_Z 1) with (S754_finite false 4503599627370496 (-52)).
    apply (SFdiv_finite_not_nan prec emax prec_pos).
    apply (SFadd_finite_not_nan prec emax prec_pos).
    destruct (exp _); [discriminate|discriminate|discriminate|discriminate].
Qed.

(** The bound for std = 0.2 and the Taylor approximation of [Math.exp]. *)
Lemma confidence_bounds_witness :
  leb (decimal 2 1) (sigmoidConfidence exp_series (decimal 2 1)) = true /\
  leb (sigmoidConfidence exp_series (decimal 2 1)) (decimal 98 2) = true.
Proof. apply (confidence_bounds exp_series (decimal 2 1)); reflexivity. Defined.

(** *** C4: the grayscale converter *)

Lemma computeGrayscale_stores (data : list Z) :
  computeGrayscale data =
  Normal (store_all (fun g => g) (fun g => fround (luma data (4 * g)))
                    (range 0 ((Z.of_nat (length data) + 3) / 4))
                    (replicate (Z.to_nat (Z.of_nat (length data) / 4)) zero)).
Proof. unfold computeGrayscale, store_all, f32_set. reflexivity. Qed.

(** Every sample [computeGrayscale] returns is a single-precision value. *)
Lemma computeGrayscale_samples (data : list Z) (gray : list number) :
  computeGrayscale data = Normal gray -> Forall (fun c => fround c = c) gray.
Proof.
  rewrite computeGrayscale_stores. intros H. apply Normal_inj in H. subst gray.
  apply store_all_Forall.
  - now apply Forall_replicate.
  - intros g. apply fround_idempotent.
Qed.

Lemma luma_bytes (data : list Z) (g : nat) (r b gb : Z) :
  data !! (4 * g)%nat = Some r ->
  data !! (4 * g + 1)%nat = Some b ->
  data !! (4 * g + 2)%nat = Some gb ->
  luma data (4 * Z.of_nat g) =
  div (add (add (mul (decimal 299 3) (of_Z r)) (mul (decimal 587 3) (of_Z b)))
           (mul (decimal 114 3) (of_Z gb)))
      (of_Z 255).
Proof.
  intros Hr Hb Hgb. unfold luma, byte_get.
  replace (Z.to_nat (4 * Z.of_nat g)) with (4 * g)%nat by lia.
  replace (Z.to_nat (4 * Z.of_nat g + 1)) with (4 * g + 1)%nat by lia.
  replace (Z.to_nat (4 * Z.of_nat g + 2)) with (4 * g + 2)%nat by lia.
  rewrite Hr, Hb, Hgb.
  destruct (4 * Z.of_nat g <? 0) eqn:E0; [apply Z.ltb_lt in E0; lia|].
  destruct (4 * Z.of_nat g + 1 <? 0) eqn:E1; [apply Z.ltb_lt in E1; lia|].
  destruct (4 * Z.of_nat g + 2 <? 0) eqn:E2; [apply Z.ltb_lt in E2; lia|].
  reflexivity.
Qed.

Lemma computeGrayscale_lookup (data : list Z) (n : nat) :
  length data = (4 * n)%nat ->
  exists gray,
    computeGrayscale data = Normal gray /\
    length gray = n /\
    forall g, (g < n)%nat -> gray !! g = Some (fround (luma data (4 * Z.of_nat g))).
Proof.
  intros Hlen. eexists. split; [apply computeGrayscale_stores|].
  assert (Hn : Z.of_nat (length data) / 4 = Z.of_nat n)
    by (rewrite Hlen; symmetry; apply Z.div_unique with (r := 0); lia).
  assert (Hc : (Z.of_nat (length data) + 3) / 4 = Z.of_nat n)
    by (rewrite Hlen; symmetry; apply Z.div_unique with (r := 3); lia).
  rewrite Hn, Hc, Nat2Z.id. split.
  - now rewrite store_all_length, length_replicate.
  - intros g Hg.
    pose proof (store_all_at (fun g => g) (fun g => fround (luma data (4 * g)))
                  (range 0 (Z.of_nat n)) (replicate n zero) (Z.of_nat g)) as H.
    cbv beta in H. rewrite Nat2Z.id in H. apply H.
    + apply elem_of_range. lia.
    + now intros j' _ ->.
    + rewrite length_replicate. lia.
Qed.

(** C4, as the code has it. For every pixel buffer of length [4 * W * H],
    [computeGrayscale] returns an intensity buffer of length [W * H] whose
    sample for pixel [g] is
    [(0.299 * buf[4g] + 0.587 * buf[4g+1] + 0.114 * buf[4g+2]) / 255]
    rounded to single precision, as the store into the [Float32Array] does:
    the weights are applied to the first three channels in buffer order, the
    fourth (alpha) channel is ignored, and an empty buffer gives an empty
    result. *)
Theorem computeGrayscale_spec (data : list Z) (W H : nat) :
  length data = (4 * W * H)%nat ->
  exists gray,
    computeGrayscale data = Normal gray /\
    length gray = (W * H)%nat /\
    (forall (g : nat) (r b gb : Z),
        data !! (4 * g)%nat = Some r ->
        data !! (4 * g + 1)%nat = Some b ->
        data !! (4 * g + 2)%nat = Some gb ->
        gray !! g =
        Some (fround
                (div (add (add (mul (decimal 299 3) (of_Z r))
                               (mul (decimal 587 3) (of_Z b)))
                          (mul (decimal 114 3) (of_Z gb)))
                     (of_Z 255)))) /\
    (forall data' : list Z,
        length data' = length data ->
        (forall j : nat, (j mod 4 <> 3)%nat -> data' !! j = data !! j) ->
        computeGrayscale data' = Normal gray) /\
    (data = [] -> gray = []).
Proof.
  intros Hlen.
  destruct (computeGrayscale_lookup data (W * H)) as (gray & Hrun & Hl & Hlook); [lia|].
  exists gray. split; [assumption|]. split; [assumption|].
  assert (Hformula : forall (d : list Z) (gr : list number),
             length d = (4 * (W * H))%nat ->
             (forall g, (g < W * H)%nat -> gr !! g = Some (fround (luma d (4 * Z.of_nat g)))) ->
             forall (g : nat) (r b gb : Z),
               d !! (4 * g)%nat = Some r ->
               d !! (4 * g + 1)%nat = Some b ->
               d !! (4 * g + 2)%nat = Some gb ->
               gr !! g =
               Some (fround
                       (div (add (add (mul (decimal 299 3) (of_Z r))
                                      (mul (decimal 587 3) (of_Z b)))
                                 (mul (decimal 114 3) (of_Z gb)))
                            (of_Z 255)))).
  { intros d gr Hd Hgr g r b gb Hr Hb Hgb.
    assert (Hg : (g < W * H)%nat) by (apply lookup_lt_Some in Hgb; lia).
    rewrite Hgr by assumption. f_equal. f_equal. now apply luma_bytes. }
  split; [apply Hformula; [lia|assumption]|]. split.
  - intros data' Hlen' Hsame.
    destruct (computeGrayscale_lookup data' (W * H)) as (gray' & Hrun' & Hl' & Hlook'); [lia|].
    rewrite Hrun'. f_equal. apply list_eq. intros g.
    destruct (Nat.lt_ge_cases g (W * H)) as [Hg|Hg].
    + destruct (lookup_lt_is_Some_2 data (4 * g)) as [r Hr]; [lia|].
      destruct (lookup_lt_is_Some_2 data (4 * g + 1)) as [b Hb]; [lia|].
      destruct (lookup_lt_is_Some_2 data (4 * g + 2)) as [gb Hgb]; [lia|].
      rewrite (Hformula data gray ltac:(lia) Hlook g r b gb Hr Hb Hgb).
      apply (Hformula data' gray' ltac:(lia) Hlook' g r b gb).
      * rewrite Hsame; [assumption|]. rewrite Nat.mul_comm, Nat.Div0.mod_mul. lia.
      * rewrite Hsame; [assumption|].
        rewrite Nat.add_comm, Nat.mul_comm, Nat.Div0.mod_add. cbn. lia.
      * rewrite Hsame; [assumption|].
        rewrite Nat.add_comm, Nat.mul_comm, Nat.Div0.mod_add. cbn. lia.
    + rewrite !lookup_ge_None_2 by lia. reflexivity.
  - intros ->. cbn in Hlen. destruct gray; [reflexivity|]. cbn in Hl. lia.
Qed.

(** The contract on a 2x1 image (one red and one green pixel). *)
Lemma computeGrayscale_spec_witness :
  exists gray,
    computeGrayscale [255; 0; 0; 255; 0; 255; 0; 255] = Normal gray /\
    length gray = (2 * 1)%nat /\
    (forall (g : nat) (r b gb : Z),
        [255; 0; 0; 255; 0; 255; 0; 255] !! (4 * g)%nat = Some r ->
        [255; 0; 0; 255; 0; 255; 0; 255] !! (4 * g + 1)%nat = Some b ->
        [255; 0; 0; 255; 0; 255; 0; 255] !! (4 * g + 2)%nat = Some gb ->
        gray !! g =
        Some (fround
                (div (add (add (mul (decimal 299 3) (of_Z r))
                               (mul (decimal 587 3) (of_Z b)))
                          (mul (decimal 114 3) (of_Z gb)))
                     (of_Z 255)))) /\
    (forall data' : list Z,
        length data' = length [255; 0; 0; 255; 0; 255; 0; 255] ->
        (forall j : nat, (j mod 4 <> 3)%nat ->
                         data' !! j = [255; 0; 0; 255; 0; 255; 0; 255] !! j) ->
        computeGrayscale data' = Normal gray) /\
    ([255; 0; 0; 255; 0; 255; 0; 255] = [] -> gray = []).
Proof.
  apply (computeGrayscale_spec [255; 0; 0; 255; 0; 255; 0; 255] 2 1). reflexivity.
Defined.

(** C4 fails as stated: for the single pixel (1, 0, 0, 255) the formula has
    the value 0.001172549019607843, and the sample that is stored is its
    single-precision neighbour 0.0011725489748641849. *)
Lemma computeGrayscale_rounds :
  computeGrayscale [1; 0; 0; 255] =
  Normal [S754_finite false 5407427713302528 (-62)] /\
  div (add (add (mul (decimal 299 3) (of_Z 1)) (mul (decimal 587 3) (of_Z 0)))
           (mul (decimal 114 3) (of_Z 0)))
      (of_Z 255) =
  S754_finite false 5407427919646231 (-62).
Proof. split; vm_compute; reflexivity. Qed.

(** *** C5 and C6: the edge detector *)

(** C5. For all widths and heights of at least 3, [sobelEdges] returns an
    edge buffer of [width * height] samples in which every pixel of the outer
    one-pixel frame (row 0, row [height - 1], column 0, column [width - 1])
    is 0, whatever the intensities are: the Sobel computation only stores at
    interior pixels. *)
Theorem sobelEdges_border_zero (gray : Float32Array) (width height : Z) :
  3 <= width -> 3 <= height ->
  exists out,
    sobelEdges gray width height = Normal out /\
    Z.of_nat (length out) = width * height /\
    forall x y,
      0 <= x < width -> 0 <= y < height ->
      x = 0 \/ x = width - 1 \/ y = 0 \/ y = height - 1 ->
      out !! Z.to_nat (y * width + x) = Some 0.
Proof.
  intros Hw Hh. eexists. split; [apply sobelEdges_stores; nia|].
  split; [rewrite store_all_length, length_replicate; nia|].
  intros x y Hx Hy Hborder.
  rewrite store_all_other.
  - apply lookup_replicate_2. nia.
  - intros [y' x'] Hin. apply elem_of_pairs in Hin as [Hy' Hx'].
    apply elem_of_range in Hy', Hx'. unfold sobel_idx. cbn [fst snd].
    rewrite Z2Nat.id by nia. intros Heq.
    apply sobel_idx_inj in Heq as [-> ->]; lia.
Qed.

(** The frame of a uniform 3x3 image. *)
Lemma sobelEdges_border_zero_witness :
  exists out,
    sobelEdges (replicate 9 (of_Z 1)) 3 3 = Normal out /\
    Z.of_nat (length out) = 3 * 3 /\
    forall x y,
      0 <= x < 3 -> 0 <= y < 3 ->
      x = 0 \/ x = 3 - 1 \/ y = 0 \/ y = 3 - 1 ->
      out !! Z.to_nat (y * 3 + x) = Some 0.
Proof. apply (sobelEdges_border_zero (replicate 9 (of_Z 1)) 3 3); lia. Defined.

(** C6. For all widths and heights of at least 3 and every interior pixel
    [(x, y)], the sample of the edge buffer is
    [min(255, sqrt(sx^2 + sy^2) * 255)] stored as a clamped 8-bit integer,
    where [sx] and [sy] are the responses of the kernels [Gx] and [Gy]; and
    every sample of the edge buffer is an integer between 0 and 255. *)
Theorem sobelEdges_interior (gray : Float32Array) (width height x y : Z) :
  3 <= width -> 3 <= height ->
  1 <= x < width - 1 -> 1 <= y < height - 1 ->
  exists out,
    sobelEdges gray width height = Normal out /\
    (let sx := response [-1; 0; 1; -2; 0; 2; -1; 0; 1] gray width x y in
     let sy := response [-1; -2; -1; 0; 0; 0; 1; 2; 1] gray width x y in
     out !! Z.to_nat (y * width + x) =
     Some (toUint8Clamp
             (min2 (of_Z 255)
                   (mul (sqrt (add (mul sx sx) (mul sy sy))) (of_Z 255))))) /\
    Forall (fun v => 0 <= v <= 255) out.
Proof.
  intros Hw Hh Hx Hy. eexists. split; [apply sobelEdges_stores; nia|]. split.
  - cbv zeta.
    change (y * width + x) with (sobel_idx width (y, x)).
    rewrite store_all_at with (j := (y, x)).
    + unfold sobel_val. cbn [fst snd]. now rewrite magnitude_response.
    + apply elem_of_pairs. rewrite !elem_of_range. lia.
    + intros [y' x'] Hin Heq. apply elem_of_pairs in Hin as [Hy' Hx'].
      apply elem_of_range in Hy', Hx'. unfold sobel_idx in Heq. cbn [fst snd] in Heq.
      apply sobel_idx_inj in Heq as [-> ->]; [reflexivity|lia|lia].
    + rewrite length_replicate. unfold sobel_idx. cbn [fst snd]. nia.
  - apply store_all_Forall.
    + apply Forall_replicate. lia.
    + intros j. apply toUint8Clamp_range.
Qed.

(** The centre of a 3x3 image with a vertical edge. *)
Lemma sobelEdges_interior_witness :
  exists out,
    sobelEdges [zero; zero; of_Z 1; zero; zero; of_Z 1; zero; zero; of_Z 1] 3 3
    = Normal out /\
    (let gray := [zero; zero; of_Z 1; zero; zero; of_Z 1; zero; zero; of_Z 1] in
     let sx := response [-1; 0; 1; -2; 0; 2; -1; 0; 1] gray 3 1 1 in
     let sy := response [-1; -2; -1; 0; 0; 0; 1; 2; 1] gray 3 1 1 in
     out !! Z.to_nat (1 * 3 + 1) =
     Some (toUint8Clamp
             (min2 (of_Z 255)
                   (mul (sqrt (add (mul sx sx) (mul sy sy))) (of_Z 255))))) /\
    Forall (fun v => 0 <= v <= 255) out.
Proof.
  apply (sobelEdges_interior
           [zero; zero; of_Z 1; zero; zero; of_Z 1; zero; zero; of_Z 1] 3 3 1 1); lia.
Defined.

(** *** C7: uniform buffers *)

(** C7, as the code has it. For every non-empty intensity buffer of at
    most [2^29] samples that all equal the same finite single-precision
    value [c], [featureSignature] returns std = 0 and skew = 0, the
    denominator of the z-scores being [std + 1e-6 = 1e-6]. *)
Theorem featureSignature_uniform (c : number) (n : nat) :
  is_finite c = true ->
  fround c = c ->
  (1 <= n)%nat ->
  Z.of_nat n <= 2 ^ 29 ->
  exists fv,
    featureSignature (replicate n c) = Normal fv /\
    std fv = zero /\
    skew fv = zero /\
    add (std fv) epsilon = decimal 1 6.
Proof.
  intros Hfin Hf32 Hn1 Hn.
  assert (Hk : exists k : positive, n = Pos.to_nat k /\ Zpos k <= 2 ^ 29).
  { exists (Pos.of_nat n). rewrite Nat2Pos.id by lia. split; [reflexivity|].
    rewrite <- Hn at 1. apply Z.eq_le_incl. lia. }
  destruct Hk as (k & -> & Hk).
  assert (Hk53 : Zpos k < 2 ^ 53).
  { apply Z.le_lt_trans with (2 ^ 29); [assumption|]. reflexivity. }
  assert (Hlen : of_Z (Z.of_nat (length (replicate (Pos.to_nat k) c)))
                 = S754_finite false (canon_m k) (canon_e k 0)).
  { rewrite length_replicate, positive_nat_Z. now apply of_Z_pos. }
  assert (Hgoal : exists mu, featureSignature (replicate (Pos.to_nat k) c)
                             = Normal {| mean := mu; std := zero; skew := zero |}).
  { destruct c as [sc|sc| |s M E]; try discriminate.
    - exists zero. eapply deviation_zero_features with (sd := sc);
        [reflexivity| |exact Hlen|now destruct sc].
      rewrite Hlen.
      change (fold_left (fun mean x => add mean x)) with (fold_left add).
      rewrite fold_left_replicate_fixed by now destruct sc. reflexivity.
    - destruct (float32_sample_shape s M E Hf32) as (m & e & Hm & He & Hc).
      assert (Hmk : Zpos m * Zpos k < 2 ^ 53).
      { apply Z.le_lt_trans with ((2 ^ 24 - 1) * 2 ^ 29); [|reflexivity].
        apply Z.mul_le_mono_nonneg; lia. }
      exists (S754_finite s M E).
      eapply deviation_zero_features with (sd := false);
        [reflexivity| |exact Hlen|apply sub_self].
      change (fold_left (fun mean x => add mean x)) with (fold_left add).
      rewrite length_replicate, positive_nat_Z, Hc.
      rewrite sum_replicate by (assumption || lia).
      apply div_sum; [assumption|lia]. }
  destruct Hgoal as (mu & Hrun). eexists. split; [exact Hrun|].
  cbn [std skew]. repeat split; reflexivity.
Qed.

(** Four samples equal to 0.3 in single precision. *)
Lemma featureSignature_uniform_witness :
  exists fv,
    featureSignature (replicate 4 (fround (decimal 3 1))) = Normal fv /\
    std fv = zero /\
    skew fv = zero /\
    add (std fv) epsilon = decimal 1 6.
Proof.
  apply (featureSignature_uniform (fround (decimal 3 1)) 4);
    [reflexivity|reflexivity|lia|cbn; lia].
Defined.

(** C7 fails as stated: in a buffer of [2^29 + 33] samples that all equal
    0.99999994 the sum is rounded, the mean is not the sample, and the
    standard deviation is [2^-53], not 0. *)
Lemma featureSignature_uniform_long :
  exists fv,
    featureSignature (replicate (Pos.to_nat long_length) near_one) = Normal fv /\
    mean fv = S754_finite false 9007198717870081 (-53) /\
    std fv = S754_finite false 4503599627370496 (-105) /\
    std fv <> zero.
Proof.
  unfold featureSignature. cbv zeta. eexists. split; [reflexivity|].
  cbn [mean std].
  change (fold_left (fun mean x => add mean x)) with (fold_left add).
  rewrite long_sum, length_replicate, positive_nat_Z.
  assert (Hmean : div (S754_finite false 4503599635759088 (-23)) (of_Z (Zpos long_length))
                  = S754_finite false 9007198717870081 (-53))
    by (vm_compute; reflexivity).
  rewrite Hmean. rewrite long_variance by (vm_compute; reflexivity).
  split; [reflexivity|]. split; [vm_compute; reflexivity|discriminate].
Qed.

(** *** C8: determinism of the pipeline *)

(** C8. On every valid pixel buffer (of length [4 * width * height]) the
    pipeline returns a prediction, and two invocations on identical input
    return identical mean, std, skew, vehicle index and confidence. *)
Theorem predict_deterministic (exp : number -> number)
        (rgba1 rgba2 : list Z) (w1 h1 w2 h2 : Z) :
  0 <= w1 -> 0 <= h1 -> Z.of_nat (length rgba1) = 4 * w1 * h1 ->
  rgba1 = rgba2 -> w1 = w2 -> h1 = h2 ->
  exists p1 p2,
    predict exp rgba1 w1 h1 = Normal p1 /\
    predict exp rgba2 w2 h2 = Normal p2 /\
    mean (features p1) = mean (features p2) /\
    std (features p1) = std (features p2) /\
    skew (features p1) = skew (features p2) /\
    idx p1 = idx p2 /\
    vehicle p1 = vehicle p2 /\
    confidence p1 = confidence p2.
Proof.
  intros Hw Hh Hlen <- <- <-.
  unfold predict.
  rewrite computeGrayscale_stores. cbn [bind].
  rewrite sobelEdges_stores by nia. cbn [bind].
  unfold featureSignature. cbn [bind].
  eexists; eexists. repeat split.
Qed.

(** Two runs on a 2x1 image. *)
Lemma predict_deterministic_witness :
  exists p1 p2,
    predict exp_series [255; 0; 0; 255; 0; 255; 0; 255] 2 1 = Normal p1 /\
    predict exp_series [255; 0; 0; 255; 0; 255; 0; 255] 2 1 = Normal p2 /\
    mean (features p1) = mean (features p2) /\
    std (features p1) = std (features p2) /\
    skew (features p1) = skew (features p2) /\
    idx p1 = idx p2 /\
    vehicle p1 = vehicle p2 /\
    confidence p1 = confidence p2.
Proof.
  apply (predict_deterministic exp_series
           [255; 0; 0; 255; 0; 255; 0; 255] [255; 0; 0; 255; 0; 255; 0; 255]
           2 1 2 1); [lia|lia|reflexivity|reflexivity|reflexivity|reflexivity].
Defined.

(** *** C9: the example of the specification *)

(** C9. For mean = 0.5, std = 0.2 and skew = 0.1 the index
    [|floor(0.5 * 7 + 0.2 * 11 + 0.1 * 13)| mod 5] is 2, and entry 2 of the
    catalog, the Ford F-150, is selected. *)
Theorem classIndex_example :
  let f := {| mean := decimal 5 1; std := decimal 2 1; skew := decimal 1 1 |} in
  classIndex f = of_Z 2 /\
  array_get VEHICLES (classIndex f) =
  Some {| make := "Ford"; model := "F-150"; class := "Pickup"; tire := "275/65R18" |}.
Proof. vm_compute. split; reflexivity. Qed.

(** *** C10: the two copies of the preview helpers *)

(** C10. The copies of [computeGrayscale] and [sobelEdges] in the API route
    and in the page component return the same buffers on the same input. *)
Theorem route_page_agree :
  (forall data : list Z, Route.computeGrayscale data = Page.computeGrayscale data) /\
  (forall (gray : list number) (width height : Z),
      Route.sobelEdges gray width height = Page.sobelEdges gray width height).
Proof.
  split.
  - intros data. unfold Route.computeGrayscale, Page.computeGrayscale.
    unfold Route.luma, Page.luma. reflexivity.
  - intros gray width height. unfold Route.sobelEdges, Page.sobelEdges.
    unfold Route.magnitude, Page.magnitude.
    unfold Route.kernel_step, Page.kernel_step.
    unfold Route.gx, Page.gx, Route.gy, Page.gy. reflexivity.
Qed.
